(** * indexed-sublevel: secondary indexes over an ordered key-value store

    A shallow embedding of [src/src/index.ts] (class [IdexedSubLevel]) and the
    properties of its write path ([put], [del]) and query path ([query]).

    The ordered store itself (abstract-level) and the key encoding
    (charwise-compact) are collaborators of the class: the store is modelled
    as finite maps with an atomic batch, the encoding as the ordering it
    induces on keys. *)

From Stdlib Require Import ZArith NArith.
From stdpp Require Import base option list gmap strings sorting.

Open Scope Z_scope.

(** ** Keys *)

(** A JavaScript string is a sequence of UTF-16 code units. *)
Abbreviation jsstring := (list N).

(** An ASCII literal as a JavaScript string. *)
Definition str (s : string) : jsstring :=
  map (fun c => N.of_nat (Ascii.nat_of_ascii c)) (String.list_ascii_of_string s).

(** The scalar values used as primary keys and as derived index values:
    booleans, numbers (integers here) and strings.  [null] and [undefined]
    are refused as keys by the store and are left out. *)
Inductive atom : Type :=
  | ABool (b : bool)
  | ANum (n : Z)
  | AStr (s : jsstring).

#[global] Instance atom_eq_dec : EqDecision atom.
Proof. solve_decision. Defined.

Definition atom_to_sum (a : atom) : bool + Z + jsstring :=
  match a with
  | ABool b => inl (inl b)
  | ANum n => inl (inr n)
  | AStr s => inr s
  end.

Definition atom_of_sum (x : bool + Z + jsstring) : atom :=
  match x with
  | inl (inl b) => ABool b
  | inl (inr n) => ANum n
  | inr s => AStr s
  end.

#[global] Instance atom_countable : Countable atom.
Proof.
  refine (inj_countable' atom_to_sum atom_of_sum _).
  intros []; reflexivity.
Defined.

(** A composite key is the JavaScript array [[indexValue, mainKey]]; the scan
    bounds of [query] are arrays too, of length one and two. *)
Abbreviation jsarray := (list atom).
Abbreviation entrykey := (atom * atom)%type.

Definition entry_array (ck : entrykey) : jsarray := [ck.1; ck.2].

(** ** Orderings *)

(** A key encoding is represented by the order it induces on scalars. *)
Definition KeyEncoding : Type := atom → atom → comparison.

(** Lexicographic comparison of sequences; a proper prefix sorts first. *)
Fixpoint lex_cmp {A : Type} (cmp : A → A → comparison) (x y : list A) : comparison :=
  match x, y with
  | [], [] => Eq
  | [], _ :: _ => Lt
  | _ :: _, [] => Gt
  | a :: x', b :: y' =>
      match cmp a b with
      | Eq => lex_cmp cmp x' y'
      | c => c
      end
  end.

(** Modelled from the spec: the order of composite keys in an index namespace.
    The encoder is not part of the repository; the glossary fixes its
    contract: "ordered pair (derived index value, primary key), compared
    lexicographically by derived value first", and section 4.5 puts the bare
    [(value)] below every [(value, key)]. *)
Definition array_cmp (enc : KeyEncoding) (x y : jsarray) : comparison :=
  lex_cmp enc x y.

Definition type_rank (a : atom) : Z :=
  match a with
  | ABool _ => 0
  | ANum _ => 1
  | AStr _ => 2
  end.

(** Modelled from the spec: the "default ordering" of an index, [charwise]
    at line 8 of the source, a library outside the repository.  This is a
    stand-in for it: scalars sort by type (booleans, then numbers, then
    strings), booleans with [false] first, numbers numerically, strings by
    code unit.  The store orders the encoded bytes of a key, which need not
    agree with this on strings outside ASCII; no general result below
    depends on it, they hold for every lawful ordering, and the scenarios
    use it on ASCII keys and on the high-value constant against itself. *)
Definition charwise : KeyEncoding := fun a b =>
  match a, b with
  | ABool x, ABool y => Bool.compare x y
  | ANum x, ANum y => Z.compare x y
  | AStr s, AStr t => lex_cmp N.compare s t
  | _, _ => Z.compare (type_rank a) (type_rank b)
  end.

(** What the proofs need of an ordering: it separates distinct keys and is
    antisymmetric. *)
Definition lawful (enc : KeyEncoding) : Prop :=
  (∀ a b, enc a b = Eq → a = b) ∧
  (∀ a, enc a a = Eq) ∧
  (∀ a b, enc b a = CompOpp (enc a b)).

(** The one-code-unit string U+FFFF of line 174, the "high-value constant". *)
Definition high_value : jsstring := [65535%N].

(** ** Errors *)

Inductive Error : Type :=
  | InvalidIndexDefinition (name : string)
  | IndexNotFound (indexName : string)
  | GetterFailure (e : string)
  | TypeError.

(** ** Getters *)

(** A call of a user-supplied getter: it raises, returns [undefined], or
    returns an index value. *)
Inductive GetterResult : Type :=
  | Throws (e : string)
  | ReturnsUndefined
  | Returns (indexValue : atom).

#[global] Instance GetterResult_eq_dec : EqDecision GetterResult.
Proof. solve_decision. Defined.

Section Collection.

(** The record type [V] of the class, and property access [record[field]]. *)
Context {V : Type}.
Variable get_prop : V → string → option atom.

(** ** The store *)

(** The main sublevel maps primary keys to records; each index sublevel,
    addressed by its name, maps composite keys to their payload. *)
Record Store : Type := mkStore {
  main : gmap atom V;
  subs : gmap string (gmap entrykey string)
}.

Definition empty_store : Store := mkStore ∅ ∅.

Definition sublevel_store (s : Store) (name : string) : gmap entrykey string :=
  default ∅ (subs s !! name).

(** Operations staged on a chained batch ([batch.put], [batch.del] with a
    [sublevel] option). *)
Inductive BatchOp : Type :=
  | BPut (key : atom) (value : V)
  | BDel (key : atom)
  | BPutIdx (sublevel : string) (compositeKey : entrykey) (payload : string)
  | BDelIdx (sublevel : string) (compositeKey : entrykey).

Definition is_put (op : BatchOp) : bool :=
  match op with
  | BPut _ _ | BPutIdx _ _ _ => true
  | BDel _ | BDelIdx _ _ => false
  end.

(** Operations on index sublevels only. *)
Definition is_idx_op (op : BatchOp) : bool :=
  match op with
  | BPutIdx _ _ _ | BDelIdx _ _ => true
  | _ => false
  end.

Definition apply_op (s : Store) (op : BatchOp) : Store :=
  match op with
  | BPut key value => mkStore (<[key := value]> (main s)) (subs s)
  | BDel key => mkStore (delete key (main s)) (subs s)
  | BPutIdx sub ck payload =>
      mkStore (main s) (<[sub := <[ck := payload]> (sublevel_store s sub)]> (subs s))
  | BDelIdx sub ck =>
      mkStore (main s) (<[sub := delete ck (sublevel_store s sub)]> (subs s))
  end.

(** [batch.write()]: the staged operations take effect together, in order.
    A commit that fails inside the store is not modelled. *)
Definition write (batch : list BatchOp) (s : Store) : Store :=
  foldl apply_op s batch.

(** [this.get(key)] and [this.getMany(keys)]; an absent key reads as
    [undefined], here [None]. *)
Definition get (key : atom) (s : Store) : option V := main s !! key.

Definition getMany (keys : list atom) (s : Store) : list (option V) :=
  map (fun key => main s !! key) keys.

(** [sublevel.iterator({gt, lt})]: the entries strictly between the bounds,
    in ascending key order. *)
Definition in_range (enc : KeyEncoding) (gt lt x : jsarray) : Prop :=
  array_cmp enc gt x = Lt ∧ array_cmp enc x lt = Lt.

Definition entry_le (enc : KeyEncoding) (e1 e2 : entrykey * string) : Prop :=
  array_cmp enc (entry_array e1.1) (entry_array e2.1) ≠ Gt.

Definition iterator (enc : KeyEncoding) (gt lt : jsarray)
    (m : gmap entrykey string) : list (entrykey * string) :=
  merge_sort (entry_le enc)
    (filter (fun e => in_range enc gt lt (entry_array e.1)) (map_to_list m)).

(** ** Index definitions and the registry *)

Inductive IndexDef : Type :=
  | DefFunction (f : V → GetterResult)
  | DefObject (getter : option (V → GetterResult)) (field : option string)
      (keyEncoding : option KeyEncoding)
  | DefOther.

Record IndexConfig : Type := mkConfig {
  getter : V → GetterResult;
  sublevel : string;
  keyEncoding : KeyEncoding
}.

(** [record[def.field]]; an absent [field] reads the property named
    "undefined". *)
Definition field_getter (field : option string) (record : V) : GetterResult :=
  match get_prop record (default "undefined"%string field) with
  | Some a => Returns a
  | None => ReturnsUndefined
  end.

Definition parseIndexDefinition (name : string) (def : IndexDef)
    : Error + (V → GetterResult) * KeyEncoding :=
  match def with
  | DefFunction f => inr (f, charwise)
  | DefObject g field enc => inr (default (field_getter field) g, default charwise enc)
  | DefOther => inl (InvalidIndexDefinition name)
  end.

(** [this.indexes[name] = config]: an existing property keeps its place. *)
Fixpoint registry_set (name : string) (config : IndexConfig)
    (indexes : list (string * IndexConfig)) : list (string * IndexConfig) :=
  match indexes with
  | [] => [(name, config)]
  | (n, c) :: rest =>
      if decide (n = name) then (n, config) :: rest
      else (n, c) :: registry_set name config rest
  end.

(** The own property [indexName] of [this.indexes]. *)
Fixpoint registry_get (indexes : list (string * IndexConfig)) (indexName : string)
    : option IndexConfig :=
  match indexes with
  | [] => None
  | (n, c) :: rest => if decide (n = indexName) then Some c else registry_get rest indexName
  end.

(** The object [this.indexes]: its own properties in insertion order, and
    the configuration that became its prototype if the name "__proto__" was
    assigned, which on a plain object sets the prototype and adds no
    property. *)
Record IdexedSubLevel : Type := mkCollection {
  prefix : string;
  indexes : list (string * IndexConfig);
  indexes_proto : option IndexConfig
}.

(** The loop of the constructor (lines 68-74).  A sublevel name that the
    store refuses is not modelled: the results on the constructor are about
    the collections it returns. *)
Fixpoint register_indexes (prefix : string) (entries : list (string * IndexDef))
    (indexes : list (string * IndexConfig)) (proto : option IndexConfig)
    : Error + list (string * IndexConfig) * option IndexConfig :=
  match entries with
  | [] => inr (indexes, proto)
  | (name, def) :: rest =>
      match parseIndexDefinition name def with
      | inl e => inl e
      | inr (getter, keyEncoding) =>
          let indexName := ("idx_" +:+ prefix +:+ "_" +:+ name)%string in
          let config := mkConfig getter indexName keyEncoding in
          if decide (name = "__proto__"%string)
          then register_indexes prefix rest indexes (Some config)
          else register_indexes prefix rest (registry_set name config indexes) proto
      end
  end.

Definition construct (prefix : string) (options_indexes : list (string * IndexDef))
    : Error + IdexedSubLevel :=
  match register_indexes prefix options_indexes [] None with
  | inl e => inl e
  | inr (indexes, proto) => inr (mkCollection prefix indexes proto)
  end.

(** The string-named properties of [Object.prototype], which every plain
    object inherits; all of them hold a function or an object. *)
Definition object_prototype_names : list string :=
  ["constructor"; "__defineGetter__"; "__defineSetter__"; "hasOwnProperty";
   "__lookupGetter__"; "__lookupSetter__"; "isPrototypeOf";
   "propertyIsEnumerable"; "toString"; "valueOf"; "__proto__";
   "toLocaleString"]%string.

(** The properties of a configuration object (line 73). *)
Definition config_property_names : list string :=
  ["getter"; "sublevel"; "keyEncoding"]%string.

(** What [this.indexes[indexName]] finds: a configuration, another truthy
    value that the object inherits, or [undefined]. *)
Inductive Lookup : Type :=
  | Found (config : IndexConfig)
  | Inherited
  | Absent.

Definition indexes_lookup (coll : IdexedSubLevel) (indexName : string) : Lookup :=
  match registry_get (indexes coll) indexName with
  | Some config => Found config
  | None =>
      match indexes_proto coll with
      | Some config =>
          if decide (indexName = "__proto__"%string) then Found config
          else if decide (indexName ∈ config_property_names ++ object_prototype_names)
          then Inherited else Absent
      | None =>
          if decide (indexName ∈ object_prototype_names) then Inherited else Absent
      end
  end.

(** [Object.values(this.indexes)]. *)
Definition configs (coll : IdexedSubLevel) : list IndexConfig := (indexes coll).*2.

(** ** Operations *)

(** What a call leaves behind: its result, the operations it staged on its
    batch, and the store afterwards. *)
Record Outcome (A : Type) : Type := mkOutcome {
  result : Error + A;
  staged : list BatchOp;
  after : Store
}.
Arguments mkOutcome {A} _ _ _.
Arguments result {A} _.
Arguments staged {A} _.
Arguments after {A} _.

(** The loop of [put] (lines 115-121): the batch when the loop exits, and the
    failure of the getter that raised, if one did. *)
Fixpoint stage_index_puts (cfgs : list IndexConfig) (key : atom) (value : V)
    (batch : list BatchOp) : list BatchOp * option Error :=
  match cfgs with
  | [] => (batch, None)
  | config :: rest =>
      match getter config value with
      | Throws e => (batch, Some (GetterFailure e))
      | ReturnsUndefined => stage_index_puts rest key value batch
      | Returns indexValue =>
          let compositeKey := (indexValue, key) in
          stage_index_puts rest key value
            (batch ++ [BPutIdx (sublevel config) compositeKey ""])
      end
  end.

Definition put (coll : IdexedSubLevel) (key : atom) (value : V) (s : Store)
    : Outcome unit :=
  let batch := [BPut key value] in
  match stage_index_puts (configs coll) key value batch with
  | (batch, Some e) => mkOutcome (inl e) batch s
  | (batch, None) => mkOutcome (inr tt) batch (write batch s)
  end.

(** The loop of [del] (lines 145-151). *)
Fixpoint stage_index_dels (cfgs : list IndexConfig) (key : atom) (oldValue : V)
    (batch : list BatchOp) : list BatchOp * option Error :=
  match cfgs with
  | [] => (batch, None)
  | config :: rest =>
      match getter config oldValue with
      | Throws e => (batch, Some (GetterFailure e))
      | ReturnsUndefined => stage_index_dels rest key oldValue batch
      | Returns indexValue =>
          let compositeKey := (indexValue, key) in
          stage_index_dels rest key oldValue
            (batch ++ [BDelIdx (sublevel config) compositeKey])
      end
  end.

Definition del (coll : IdexedSubLevel) (key : atom) (s : Store) : Outcome unit :=
  match get key s with
  | None => mkOutcome (inr tt) [] s
  | Some oldValue =>
      let batch := [BDel key] in
      match stage_index_dels (configs coll) key oldValue batch with
      | (batch, Some e) => mkOutcome (inl e) batch s
      | (batch, None) => mkOutcome (inr tt) batch (write batch s)
      end
  end.

Definition lowerBound (value : atom) : jsarray := [value].
Definition upperBound (value : atom) : jsarray := [value; AStr high_value].

(** The scan of [query] (lines 173-183): the main keys of the entries
    between the bounds. *)
Definition scan_keys (config : IndexConfig) (value : atom) (s : Store) : list atom :=
  map (fun e => e.1.2)
    (iterator (keyEncoding config) (lowerBound value) (upperBound value)
       (sublevel_store s (sublevel config))).

Definition query (coll : IdexedSubLevel) (indexName : string) (value : atom)
    (s : Store) : Outcome (list V) :=
  match indexes_lookup coll indexName with
  | Absent => mkOutcome (inl (IndexNotFound indexName)) [] s
  | Inherited =>
      (* [config.sublevel] has no [iterator] *)
      mkOutcome (inl TypeError) [] s
  | Found config =>
      let keys := scan_keys config value s in
      match keys with
      | [] => mkOutcome (inr []) [] s
      | _ =>
          let records := getMany keys s in
          mkOutcome (inr (omap id records)) [] s
      end
  end.

(** The index puts that [put] stages for a value on which no getter raises. *)
Definition index_put (key : atom) (value : V) (config : IndexConfig)
    : option BatchOp :=
  match getter config value with
  | Returns iv => Some (BPutIdx (sublevel config) (iv, key) "")
  | _ => None
  end.

Definition index_del (key : atom) (value : V) (config : IndexConfig)
    : option BatchOp :=
  match getter config value with
  | Returns iv => Some (BDelIdx (sublevel config) (iv, key))
  | _ => None
  end.

Definition raises (value : V) (config : IndexConfig) : Prop :=
  ∃ e, getter config value = Throws e.

(** A registry built by the constructor: names are unique and each index
    has the sublevel named after the collection and the index. *)
Definition registry_wf (prefix : string) (reg : list (string * IndexConfig)) : Prop :=
  NoDup reg.*1 ∧
  Forall (fun nc => sublevel nc.2 = ("idx_" +:+ prefix +:+ "_" +:+ nc.1)%string) reg.

(** The records a query returns, each with the main key it was fetched
    under; [query] returns their second components ([query_registered]). *)
Definition query_hits (config : IndexConfig) (value : atom) (s : Store)
    : list (atom * V) :=
  omap (fun key => (fun r => (key, r)) <$> main s !! key) (scan_keys config value s).

(** The collection invariant of the data model: for a present key [K] with
    value [V0] and a registered index, the index sublevel holds the entry
    [(iv, K)] exactly when the getter returns [iv] on [V0]. *)
Definition collection_invariant (coll : IdexedSubLevel) (s : Store) : Prop :=
  ∀ K V0 config iv,
    main s !! K = Some V0 →
    config ∈ configs coll →
    is_Some (sublevel_store s (sublevel config) !! (iv, K)) ↔
    getter config V0 = Returns iv.

(** ** Further definitions *)

(** The private method [parseIndexDefinition] (lines 77-93): the parser of
    the constructor again, with an error message that names no index;
    [None] stands for that error. *)
Definition parseIndexDefinition' (def : IndexDef)
    : option ((V → GetterResult) * KeyEncoding) :=
  match def with
  | DefFunction f => Some (f, charwise)
  | DefObject g field enc => Some (default (field_getter field) g, default charwise enc)
  | DefOther => None
  end.

(** A definition that is a function or an object. *)
Definition valid_def (def : IndexDef) : Prop :=
  match def with
  | DefOther => False
  | _ => True
  end.

(** The registry entry the constructor makes of a parsed definition. *)
Definition registered (prefix name : string) (def : IndexDef)
    : option (string * IndexConfig) :=
  match parseIndexDefinition name def with
  | inl _ => None
  | inr (getter, keyEncoding) =>
      Some (name, mkConfig getter ("idx_" +:+ prefix +:+ "_" +:+ name)%string keyEncoding)
  end.

(** A staged operation that writes or deletes the given entry. *)
Definition touches (op : BatchOp) (sub : string) (ck : entrykey) : Prop :=
  match op with
  | BPutIdx sub' ck' _ | BDelIdx sub' ck' => sub' = sub ∧ ck' = ck
  | _ => False
  end.

(** The half of the collection invariant that asks for the entry of the
    current value. *)
Definition index_complete (coll : IdexedSubLevel) (s : Store) : Prop :=
  ∀ K V0 config iv,
    main s !! K = Some V0 →
    config ∈ configs coll →
    getter config V0 = Returns iv →
    sublevel_store s (sublevel config) !! (iv, K) = Some ""%string.

(** The index sublevels hold the entries of the present records and no
    other entry. *)
Definition index_exact (coll : IdexedSubLevel) (s : Store) : Prop :=
  ∀ config iv K,
    config ∈ configs coll →
    is_Some (sublevel_store s (sublevel config) !! (iv, K)) ↔
    ∃ V0, main s !! K = Some V0 ∧ getter config V0 = Returns iv.

(** The stores that calls of [put] and [del] make of the empty store. *)
Inductive reachable (coll : IdexedSubLevel) : Store → Prop :=
  | reachable_empty : reachable coll empty_store
  | reachable_put s key value :
      reachable coll s → reachable coll (after (put coll key value s))
  | reachable_del s key :
      reachable coll s → reachable coll (after (del coll key s)).

End Collection.

Arguments Store V : clear implicits.
Arguments BatchOp V : clear implicits.
Arguments IndexDef V : clear implicits.
Arguments IndexConfig V : clear implicits.
Arguments IdexedSubLevel V : clear implicits.
Arguments Outcome V A : clear implicits.
Arguments mkOutcome {V A} _ _ _.
Arguments result {V A} _.
Arguments staged {V A} _.
Arguments after {V A} _.

(** ** The index prefix *)

(** The characters "!" and "_". *)
Definition bang : Ascii.ascii := Ascii.ascii_of_nat 33.
Definition underscore : Ascii.ascii := Ascii.ascii_of_nat 95.

(** [s.replace(/!/g, "_")]. *)
Fixpoint replace_bangs (s : string) : string :=
  match s with
  | EmptyString => EmptyString
  | String c rest =>
      String (if Ascii.eqb c bang then underscore else c) (replace_bangs rest)
  end.

(** Whether a string has the character "!". *)
Fixpoint has_bang (s : string) : bool :=
  match s with
  | EmptyString => false
  | String c rest => Ascii.eqb c bang || has_bang rest
  end.

(** [_makeIndexPrefix(name)] (lines 95-97); [this_prefix] is the [prefix]
    property of the sublevel, which the store sets. *)
Definition _makeIndexPrefix (this_prefix : string) (name : string) : string :=
  ("idx" +:+ replace_bangs this_prefix +:+ name)%string.

(** ** A sample collection *)

(** Records are JavaScript objects with scalar properties. *)
Abbreviation record := (list (string * atom)).

Fixpoint record_prop (r : record) (field : string) : option atom :=
  match r with
  | [] => None
  | (f, a) :: rest => if decide (f = field) then Some a else record_prop rest field
  end.

(** [byAge = v => v.age]. *)
Definition byAge (v : record) : GetterResult :=
  match record_prop v "age" with
  | Some a => Returns a
  | None => ReturnsUndefined
  end.

(** [byCity = v => v.address.city], which raises on a record without
    [address]; the nested object is flattened to the property "city". *)
Definition byCity (v : record) : GetterResult :=
  match record_prop v "address" with
  | None => Throws "TypeError"
  | Some _ =>
      match record_prop v "city" with
      | Some a => Returns a
      | None => ReturnsUndefined
      end
  end.

Definition users_indexes : list (string * IndexDef record) :=
  [("byAge"%string, DefFunction byAge);
   ("byName"%string, DefObject None (Some "name"%string) None)].

Definition users : IdexedSubLevel record :=
  match construct record_prop "users" users_indexes with
  | inr coll => coll
  | inl _ => mkCollection "users" [] None
  end.

Definition strict_indexes : list (string * IndexDef record) :=
  [("byAge"%string, DefFunction byAge);
   ("byCity"%string, DefFunction byCity)].

Definition strict_users : IdexedSubLevel record :=
  match construct record_prop "users" strict_indexes with
  | inr coll => coll
  | inl _ => mkCollection "users" [] None
  end.

Definition aged (n : Z) : record := [("age"%string, ANum n)].
Definition named (s : string) : record := [("name"%string, AStr (str s))].
Definition u1 : atom := AStr (str "u1").
Definition u2 : atom := AStr (str "u2").


(** The registered configurations of the sample collections. *)
Definition byAge_config : IndexConfig record :=
  mkConfig byAge "idx_users_byAge" charwise.

Definition byName_config : IndexConfig record :=
  mkConfig (field_getter record_prop (Some "name"%string)) "idx_users_byName" charwise.

Definition byCity_config : IndexConfig record :=
  mkConfig byCity "idx_users_byCity" charwise.

(** [put("u1", {age: 30})] on the empty store, then [put("u1", {age: 31})]. *)
Definition store_30 : Store record := after (put users u1 (aged 30) empty_store).
Definition store_31 : Store record := after (put users u1 (aged 31) store_30).

(** [put(U+FFFF, {age: 30})] on the empty store; the key is the one-code-unit
    string U+FFFF. *)
Definition store_high : Store record :=
  after (put users (AStr high_value) (aged 30) empty_store).

(** [put("u2", {name: "a"})], [put("u2", {name: "ab"})] and
    [put("u1", {name: "a"})] on the empty store. *)
Definition store_ab : Store record :=
  after (put users u1 (named "a")
    (after (put users u2 (named "ab")
      (after (put users u2 (named "a") empty_store))))).

(** A collection with an index named "__proto__". *)
Definition shadow_indexes : list (string * IndexDef record) :=
  [("byAge"%string, DefFunction byAge);
   ("__proto__"%string, DefObject None (Some "name"%string) None)].

Definition shadow_users : IdexedSubLevel record :=
  match construct record_prop "users" shadow_indexes with
  | inr coll => coll
  | inl _ => mkCollection "users" [] None
  end.

(** A record written to the main sublevel without its index entries. *)
Definition store_unindexed : Store record := mkStore {[u1 := aged 30]} ∅.

(** * Properties *)

(** ** Orderings *)

Lemma lex_cmp_refl {A : Type} (cmp : A → A → comparison) (x : list A) :
  (∀ a, cmp a a = Eq) → lex_cmp cmp x x = Eq.
Proof.
  intros Hrefl. induction x as [|a x IH]; simpl; [done|].
  by rewrite Hrefl.
Qed.

Lemma lex_cmp_eq {A : Type} (cmp : A → A → comparison) (x y : list A) :
  (∀ a b, cmp a b = Eq → a = b) → lex_cmp cmp x y = Eq → x = y.
Proof.
  intros Heq. revert y.
  induction x as [|a x IH]; intros [|b y]; simpl; try done.
  destruct (cmp a b) eqn:Hab; try done.
  intros Hxy. f_equal; [by apply Heq | by apply IH].
Qed.

Lemma lex_cmp_opp {A : Type} (cmp : A → A → comparison) (x y : list A) :
  (∀ a b, cmp b a = CompOpp (cmp a b)) →
  lex_cmp cmp y x = CompOpp (lex_cmp cmp x y).
Proof.
  intros Hopp. revert y.
  induction x as [|a x IH]; intros [|b y]; simpl; try done.
  rewrite (Hopp a b). destruct (cmp a b); simpl; auto.
Qed.

Lemma charwise_lawful : lawful charwise.
Proof.
  split; [|split].
  - intros [x|x|x] [y|y|y]; simpl; try done.
    + destruct x, y; simpl; congruence.
    + intros ?%Z.compare_eq. congruence.
    + intros H. f_equal. apply (lex_cmp_eq N.compare); [|done].
      intros a b. apply N.compare_eq.
  - intros [x|x|x]; simpl.
    + by destruct x.
    + apply Z.compare_refl.
    + apply lex_cmp_refl, N.compare_refl.
  - intros [x|x|x] [y|y|y]; simpl; try done.
    + by destruct x, y.
    + apply Z.compare_antisym.
    + apply lex_cmp_opp. intros a b. apply N.compare_antisym.
Qed.


(** The scanned range under a lawful ordering: the entries whose index value
    is the queried one and whose main key sorts below the high-value
    constant. *)
Lemma in_scan_range (enc : KeyEncoding) (value iv key : atom) :
  lawful enc →
  in_range enc (lowerBound value) (upperBound value) (entry_array (iv, key)) ↔
  iv = value ∧ enc key (AStr high_value) = Lt.
Proof.
  intros (Heq & Hrefl & Hopp).
  unfold in_range, array_cmp, lowerBound, upperBound, entry_array. simpl.
  rewrite (Hopp value iv).
  destruct (enc value iv) eqn:Hc; simpl.
  - apply Heq in Hc as ->.
    destruct (enc key (AStr high_value)); intuition congruence.
  - split; [intros [_ ?]; done|].
    intros [-> _]. by rewrite Hrefl in Hc.
  - split; [intros [? _]; done|].
    intros [-> _]. by rewrite Hrefl in Hc.
Qed.

Section Properties.

Context {V : Type}.
Implicit Types (s : Store V) (coll : IdexedSubLevel V) (config : IndexConfig V).
Implicit Types (batch ops : list (BatchOp V)) (key : atom) (value : V).

(** ** The batch *)

Lemma write_idx_ops_main ops s :
  Forall (fun op => is_idx_op op = true) ops → main (write ops s) = main s.
Proof.
  intros Hops. revert s.
  induction Hops as [|op ops Hop _ IH]; intros s; [done|].
  change (write (op :: ops) s) with (write ops (apply_op s op)).
  rewrite IH. by destruct op.
Qed.

Lemma sublevel_store_insert s sub sub' m :
  sublevel_store (mkStore (main s) (<[sub := m]> (subs s))) sub' =
  if decide (sub = sub') then m else sublevel_store s sub'.
Proof.
  unfold sublevel_store. simpl. rewrite lookup_insert.
  by destruct (decide (sub = sub')).
Qed.

(** One staged operation, seen from one entry of one index sublevel. *)
Lemma apply_op_lookup s op sub ck :
  sublevel_store (apply_op s op) sub !! ck =
  match op with
  | BPutIdx sub' ck' payload =>
      if decide (sub' = sub ∧ ck' = ck) then Some payload
      else sublevel_store s sub !! ck
  | BDelIdx sub' ck' =>
      if decide (sub' = sub ∧ ck' = ck) then None
      else sublevel_store s sub !! ck
  | _ => sublevel_store s sub !! ck
  end.
Proof.
  destruct op as [k v|k|sub' ck' p|sub' ck']; simpl; try done.
  - destruct (decide (sub' = sub ∧ ck' = ck)) as [[-> ->]|Hne].
    + rewrite sublevel_store_insert, decide_True by done.
      apply lookup_insert_eq.
    + rewrite sublevel_store_insert.
      destruct (decide (sub' = sub)) as [->|?]; [|done].
      rewrite lookup_insert_ne; [done|]. intros ->. by apply Hne.
  - destruct (decide (sub' = sub ∧ ck' = ck)) as [[-> ->]|Hne].
    + rewrite sublevel_store_insert, decide_True by done.
      apply lookup_delete_eq.
    + rewrite sublevel_store_insert.
      destruct (decide (sub' = sub)) as [->|?]; [|done].
      rewrite lookup_delete_ne; [done|]. intros ->. by apply Hne.
Qed.

(** Puts never remove an entry: one that no staged put overwrites keeps its
    payload. *)
Lemma write_puts_preserve ops s sub ck payload :
  Forall (fun op => is_put op = true) ops →
  (∀ p, BPutIdx sub ck p ∉ ops) →
  sublevel_store s sub !! ck = Some payload →
  sublevel_store (write ops s) sub !! ck = Some payload.
Proof.
  intros Hops. revert s.
  induction Hops as [|op ops Hop _ IH]; intros s Hnot Hs; [done|].
  change (write (op :: ops) s) with (write ops (apply_op s op)).
  apply IH.
  - intros p Hin. apply (Hnot p). by right.
  - rewrite apply_op_lookup.
    destruct op as [k v|k|sub' ck' p|sub' ck']; try done.
    destruct (decide (sub' = sub ∧ ck' = ck)) as [[-> ->]|?]; [|done].
    exfalso. apply (Hnot p). by left.
Qed.

(** A staged index put is present after the write when every staged
    operation is a put with the empty payload. *)
Lemma write_puts_present ops s sub ck :
  Forall (fun op => is_put op = true) ops →
  (∀ sub' ck' p, BPutIdx sub' ck' p ∈ ops → p = ""%string) →
  sublevel_store s sub !! ck = Some ""%string ∨ BPutIdx sub ck "" ∈ ops →
  sublevel_store (write ops s) sub !! ck = Some ""%string.
Proof.
  intros Hops. revert s.
  induction Hops as [|op ops Hop _ IH]; intros s Hpay Hin.
  { destruct Hin as [?|Hin]; [done|]. by apply elem_of_nil in Hin. }
  change (write (op :: ops) s) with (write ops (apply_op s op)).
  apply IH.
  { intros ??? ?. eapply Hpay. by right. }
  rewrite apply_op_lookup.
  destruct Hin as [Hs|[<-|Hin]%elem_of_cons].
  - left. destruct op as [k v|k|sub' ck' p|sub' ck']; try done.
    destruct (decide (sub' = sub ∧ ck' = ck)); [|done].
    f_equal. eapply Hpay. by left.
  - left. by rewrite decide_True.
  - by right.
Qed.

(** Where an entry found after a write of index puts comes from. *)
Lemma write_puts_lookup_inv ops s sub ck payload :
  sublevel_store (write ops s) sub !! ck = Some payload →
  sublevel_store s sub !! ck = Some payload ∨
  (∃ p, BPutIdx sub ck p ∈ ops) ∨ (∃ op, op ∈ ops ∧ is_put op = false).
Proof.
  revert s. induction ops as [|op ops IH]; intros s Hs; [by left|].
  change (write (op :: ops) s) with (write ops (apply_op s op)) in Hs.
  apply IH in Hs as [Hs|[[p Hp]|(op' & Hin & Hop')]].
  - rewrite apply_op_lookup in Hs.
    destruct op as [k v|k|sub' ck' p|sub' ck']; try by left.
    + destruct (decide (sub' = sub ∧ ck' = ck)) as [[-> ->]|?]; [|by left].
      right; left. exists p. by left.
    + right; right. exists (BDelIdx sub' ck'). split; [by left|done].
  - right; left. exists p. by right.
  - right; right. exists op'. split; [by right|done].
Qed.

(** ** Staging *)

Lemma stage_index_puts_spec (cfgs : list (IndexConfig V)) key value batch :
  match stage_index_puts cfgs key value batch with
  | (batch', None) =>
      Forall (fun c => ¬ raises value c) cfgs ∧
      batch' = batch ++ omap (index_put key value) cfgs
  | (batch', Some err) =>
      ∃ pre c e post, cfgs = pre ++ c :: post ∧
        Forall (fun c => ¬ raises value c) pre ∧
        getter c value = Throws e ∧ err = GetterFailure e ∧
        batch' = batch ++ omap (index_put key value) pre
  end.
Proof.
  revert batch. induction cfgs as [|c cfgs IH]; intros batch; simpl.
  { split; [constructor | by rewrite app_nil_r]. }
  destruct (getter c value) as [e| |iv] eqn:Hc.
  - exists [], c, e, cfgs. simpl. rewrite app_nil_r. by repeat split.
  - assert (index_put key value c = None) as Hop
      by (unfold index_put; by rewrite Hc).
    specialize (IH batch).
    destruct (stage_index_puts cfgs key value batch) as [batch' [err|]].
    + destruct IH as (pre & c' & e & post & -> & Hpre & Hc' & -> & ->).
      exists (c :: pre), c', e, post. simpl. rewrite Hop.
      repeat split; try done.
      constructor; [|done]. intros [e' He']. congruence.
    + destruct IH as [Hall ->]. rewrite Hop. split; [|done].
      constructor; [|done]. intros [e' He']. congruence.
  - assert (index_put key value c = Some (BPutIdx (sublevel c) (iv, key) "")) as Hop
      by (unfold index_put; by rewrite Hc).
    specialize (IH (batch ++ [BPutIdx (sublevel c) (iv, key) ""])).
    destruct (stage_index_puts cfgs key value _) as [batch' [err|]].
    + destruct IH as (pre & c' & e & post & -> & Hpre & Hc' & -> & ->).
      exists (c :: pre), c', e, post. simpl. rewrite Hop, <- app_assoc.
      repeat split; try done.
      constructor; [|done]. intros [e' He']. congruence.
    + destruct IH as [Hall ->]. rewrite Hop, <- app_assoc. split; [|done].
      constructor; [|done]. intros [e' He']. congruence.
Qed.

Lemma stage_index_dels_spec (cfgs : list (IndexConfig V)) key value batch :
  match stage_index_dels cfgs key value batch with
  | (batch', None) =>
      Forall (fun c => ¬ raises value c) cfgs ∧
      batch' = batch ++ omap (index_del key value) cfgs
  | (batch', Some err) =>
      ∃ pre c e post, cfgs = pre ++ c :: post ∧
        Forall (fun c => ¬ raises value c) pre ∧
        getter c value = Throws e ∧ err = GetterFailure e ∧
        batch' = batch ++ omap (index_del key value) pre
  end.
Proof.
  revert batch. induction cfgs as [|c cfgs IH]; intros batch; simpl.
  { split; [constructor | by rewrite app_nil_r]. }
  destruct (getter c value) as [e| |iv] eqn:Hc.
  - exists [], c, e, cfgs. simpl. rewrite app_nil_r. by repeat split.
  - assert (index_del key value c = None) as Hop
      by (unfold index_del; by rewrite Hc).
    specialize (IH batch).
    destruct (stage_index_dels cfgs key value batch) as [batch' [err|]].
    + destruct IH as (pre & c' & e & post & -> & Hpre & Hc' & -> & ->).
      exists (c :: pre), c', e, post. simpl. rewrite Hop.
      repeat split; try done.
      constructor; [|done]. intros [e' He']. congruence.
    + destruct IH as [Hall ->]. rewrite Hop. split; [|done].
      constructor; [|done]. intros [e' He']. congruence.
  - assert (index_del key value c = Some (BDelIdx (sublevel c) (iv, key))) as Hop
      by (unfold index_del; by rewrite Hc).
    specialize (IH (batch ++ [BDelIdx (sublevel c) (iv, key)])).
    destruct (stage_index_dels cfgs key value _) as [batch' [err|]].
    + destruct IH as (pre & c' & e & post & -> & Hpre & Hc' & -> & ->).
      exists (c :: pre), c', e, post. simpl. rewrite Hop, <- app_assoc.
      repeat split; try done.
      constructor; [|done]. intros [e' He']. congruence.
    + destruct IH as [Hall ->]. rewrite Hop, <- app_assoc. split; [|done].
      constructor; [|done]. intros [e' He']. congruence.
Qed.

(** ** The scan *)

Lemma elem_of_iterator (enc : KeyEncoding) (gt lt : jsarray)
    (m : gmap entrykey string) (e : entrykey * string) :
  e ∈ iterator enc gt lt m ↔
  m !! e.1 = Some e.2 ∧ in_range enc gt lt (entry_array e.1).
Proof.
  unfold iterator. rewrite merge_sort_Permutation.
  rewrite list_elem_of_filter, elem_of_map_to_list'. tauto.
Qed.

Lemma NoDup_iterator_keys (enc : KeyEncoding) (gt lt : jsarray)
    (m : gmap entrykey string) :
  NoDup (iterator enc gt lt m).*1.
Proof.
  unfold iterator. rewrite merge_sort_Permutation.
  assert (∀ l : list (entrykey * string), NoDup l.*1 →
    NoDup (filter (fun e => in_range enc gt lt (entry_array e.1)) l).*1) as Hf.
  { induction l as [|x l IH]; [done|].
    rewrite fmap_cons, NoDup_cons. intros [Hx Hl].
    rewrite filter_cons. destruct (decide _); [|by apply IH].
    rewrite fmap_cons. apply NoDup_cons. split; [|by apply IH].
    intros (y & Hy & Hin)%list_elem_of_fmap.
    apply list_elem_of_filter in Hin as [_ Hin].
    apply Hx. rewrite Hy. by apply list_elem_of_fmap_2. }
  apply Hf, NoDup_fst_map_to_list.
Qed.

(** Under a lawful ordering the scan finds the main keys of the entries
    stored under the queried index value, as far as they sort below the
    high-value constant. *)
Lemma elem_of_scan_keys config (value : atom) s key :
  lawful (keyEncoding config) →
  key ∈ scan_keys config value s ↔
  is_Some (sublevel_store s (sublevel config) !! (value, key)) ∧
  keyEncoding config key (AStr high_value) = Lt.
Proof.
  intros Hlaw. unfold scan_keys. split.
  - intros ([[iv k] p] & -> & He)%list_elem_of_fmap.
    apply elem_of_iterator in He as [Hm Hr]. simpl in *.
    apply in_scan_range in Hr as [-> Hk]; [|done].
    split; [by exists p | done].
  - intros [[p Hp] Hk].
    apply list_elem_of_fmap. exists ((value, key), p). split; [done|].
    apply elem_of_iterator. split; [done|].
    by apply in_scan_range.
Qed.

Lemma NoDup_scan_keys config (value : atom) s :
  lawful (keyEncoding config) → NoDup (scan_keys config value s).
Proof.
  intros Hlaw. unfold scan_keys.
  pose proof (NoDup_iterator_keys (keyEncoding config) (lowerBound value)
    (upperBound value) (sublevel_store s (sublevel config))) as Hnd.
  assert (∀ e, e ∈ iterator (keyEncoding config) (lowerBound value)
    (upperBound value) (sublevel_store s (sublevel config)) → e.1.1 = value) as Hiv.
  { intros [[iv k] p] [_ Hr]%elem_of_iterator. simpl in *.
    by apply in_scan_range in Hr as [-> _]. }
  revert Hnd Hiv.
  generalize (iterator (keyEncoding config) (lowerBound value)
    (upperBound value) (sublevel_store s (sublevel config))).
  induction l as [|e l IH]; [constructor|].
  rewrite !fmap_cons, !NoDup_cons. intros [He Hl] Hiv.
  split.
  - intros (e' & Hk & Hin)%list_elem_of_fmap. apply He.
    apply list_elem_of_fmap. exists e'. split; [|done].
    assert (e.1.1 = value) as H1 by (apply Hiv; by left).
    assert (e'.1.1 = value) as H2 by (apply Hiv; by right).
    destruct e as [[iv k] p], e' as [[iv' k'] p']. simpl in *. congruence.
  - apply IH; [done|]. intros e' He'. apply Hiv. by right.
Qed.

(** ** The query *)

Lemma omap_id_getMany (keys : list atom) s :
  omap id (getMany keys s) = omap (fun key => main s !! key) keys.
Proof.
  unfold getMany. induction keys as [|k keys IH]; [done|].
  simpl. destruct (main s !! k); simpl; [f_equal|]; exact IH.
Qed.

Lemma query_hits_records config (value : atom) s :
  (query_hits config value s).*2 =
  omap (fun key => main s !! key) (scan_keys config value s).
Proof.
  unfold query_hits. induction (scan_keys config value s) as [|k keys IH]; [done|].
  simpl. destruct (main s !! k); simpl; [f_equal|]; exact IH.
Qed.

(** A query on a registered index returns the records of its hits and
    leaves the store alone. *)
Lemma query_registered coll (indexName : string) config (value : atom) s :
  registry_get (indexes coll) indexName = Some config →
  query coll indexName value s =
  mkOutcome (inr (query_hits config value s).*2) [] s.
Proof.
  intros Hget. unfold query, indexes_lookup. rewrite Hget, query_hits_records.
  destruct (scan_keys config value s) as [|k keys] eqn:Hkeys; [done|].
  by rewrite omap_id_getMany.
Qed.

Lemma elem_of_query_hits config (value : atom) s key (r : V) :
  (key, r) ∈ query_hits config value s ↔
  key ∈ scan_keys config value s ∧ main s !! key = Some r.
Proof.
  unfold query_hits. rewrite list_elem_of_omap. split.
  - intros (k & Hk & Hr). destruct (main s !! k) eqn:Hm; [|done].
    simpl in Hr. by simplify_eq.
  - intros [Hk Hr]. exists key. by rewrite Hr.
Qed.

(** A key that is scanned once and present gives exactly one hit. *)
Lemma query_hits_once config (value : atom) s key (r : V) :
  NoDup (scan_keys config value s) →
  key ∈ scan_keys config value s →
  main s !! key = Some r →
  filter (fun h => h.1 = key) (query_hits config value s) = [(key, r)].
Proof.
  unfold query_hits.
  induction (scan_keys config value s) as [|k keys IH]; intros Hnd Hin Hr.
  { by apply elem_of_nil in Hin. }
  apply NoDup_cons in Hnd as [Hk Hnd]. simpl.
  destruct (decide (k = key)) as [->|Hne].
  - rewrite Hr. simpl. rewrite filter_cons, decide_True by done. f_equal.
    clear IH Hin. induction keys as [|k' keys IH']; [done|].
    apply not_elem_of_cons in Hk as [Hne Hk].
    apply NoDup_cons in Hnd as [_ Hnd]. simpl.
    destruct (main s !! k'); simpl; [|by apply IH'].
    rewrite filter_cons, decide_False by (simpl; congruence). by apply IH'.
  - apply elem_of_cons in Hin as [?|Hin]; [congruence|].
    destruct (main s !! k); simpl; [|by apply IH].
    rewrite filter_cons, decide_False by done. by apply IH.
Qed.

Lemma registry_get_configs coll (indexName : string) config :
  registry_get (indexes coll) indexName = Some config → config ∈ configs coll.
Proof.
  unfold configs. induction (indexes coll) as [|[n c] rest IH]; simpl; [done|].
  destruct (decide (n = indexName)).
  - intros [= ->]. by left.
  - intros ?. right. by apply IH.
Qed.

(** ** The write path *)

Lemma index_put_inv key value config (op : BatchOp V) :
  index_put key value config = Some op →
  ∃ iv, getter config value = Returns iv ∧
        op = BPutIdx (sublevel config) (iv, key) "".
Proof.
  unfold index_put. destruct (getter config value) as [e| |iv]; try done.
  intros [= <-]. by exists iv.
Qed.

Lemma index_puts_inv key value (cfgs : list (IndexConfig V)) (op : BatchOp V) :
  op ∈ omap (index_put key value) cfgs →
  ∃ config iv, config ∈ cfgs ∧ getter config value = Returns iv ∧
               op = BPutIdx (sublevel config) (iv, key) "".
Proof.
  intros (c & Hc & Hop)%list_elem_of_omap.
  apply index_put_inv in Hop as (iv & Hg & ->). by exists c, iv.
Qed.

Lemma index_puts_are_puts key value (cfgs : list (IndexConfig V)) :
  Forall (fun op => is_put op = true) (omap (index_put key value) cfgs).
Proof.
  apply Forall_forall. intros op (c & iv & _ & _ & ->)%index_puts_inv. done.
Qed.

Lemma index_puts_are_idx_ops key value (cfgs : list (IndexConfig V)) :
  Forall (fun op => is_idx_op op = true) (omap (index_put key value) cfgs).
Proof.
  apply Forall_forall. intros op (c & iv & _ & _ & ->)%index_puts_inv. done.
Qed.

Lemma index_dels_are_idx_ops key value (cfgs : list (IndexConfig V)) :
  Forall (fun op => is_idx_op op = true) (omap (index_del key value) cfgs).
Proof.
  apply Forall_forall. intros op (c & Hc & Hop)%list_elem_of_omap.
  unfold index_del in Hop. destruct (getter c value); by simplify_eq.
Qed.

(** The two ways a [put] ends: every getter returned and the batch was
    written, or a getter raised and the batch was dropped. *)
Lemma put_cases coll key value s :
  (Forall (fun c => ¬ raises value c) (configs coll) ∧
   put coll key value s =
   mkOutcome (inr tt) (BPut key value :: omap (index_put key value) (configs coll))
     (write (BPut key value :: omap (index_put key value) (configs coll)) s)) ∨
  (∃ pre c e post, configs coll = pre ++ c :: post ∧
     Forall (fun c => ¬ raises value c) pre ∧
     getter c value = Throws e ∧
     put coll key value s =
     mkOutcome (inl (GetterFailure e))
       (BPut key value :: omap (index_put key value) pre) s).
Proof.
  unfold put.
  pose proof (stage_index_puts_spec (configs coll) key value [BPut key value]) as H.
  destruct (stage_index_puts (configs coll) key value [BPut key value])
    as [batch' [err|]].
  - destruct H as (pre & c & e & post & Hcfgs & Hpre & Hc & -> & ->).
    right. by exists pre, c, e, post.
  - destruct H as [Hall ->]. by left.
Qed.

Lemma del_cases coll key value s :
  get key s = Some value →
  (Forall (fun c => ¬ raises value c) (configs coll) ∧
   del coll key s =
   mkOutcome (inr tt) (BDel key :: omap (index_del key value) (configs coll))
     (write (BDel key :: omap (index_del key value) (configs coll)) s)) ∨
  (∃ pre c e post, configs coll = pre ++ c :: post ∧
     Forall (fun c => ¬ raises value c) pre ∧
     getter c value = Throws e ∧
     del coll key s =
     mkOutcome (inl (GetterFailure e))
       (BDel key :: omap (index_del key value) pre) s).
Proof.
  intros Hget. unfold del. rewrite Hget.
  pose proof (stage_index_dels_spec (configs coll) key value [BDel key]) as H.
  destruct (stage_index_dels (configs coll) key value [BDel key])
    as [batch' [err|]].
  - destruct H as (pre & c & e & post & Hcfgs & Hpre & Hc & -> & ->).
    right. by exists pre, c, e, post.
  - destruct H as [Hall ->]. by left.
Qed.

Lemma put_success coll key value s :
  result (put coll key value s) = inr tt →
  put coll key value s =
  mkOutcome (inr tt) (BPut key value :: omap (index_put key value) (configs coll))
    (write (BPut key value :: omap (index_put key value) (configs coll)) s).
Proof.
  destruct (put_cases coll key value s)
    as [[_ ->]|(pre & c & e & post & _ & _ & _ & ->)]; [done|].
  simpl. discriminate.
Qed.

Lemma put_main coll key value s :
  result (put coll key value s) = inr tt →
  main (after (put coll key value s)) = <[key := value]> (main s).
Proof.
  intros ->%put_success. simpl.
  change (write (?op :: ?ops) ?s) with (write ops (apply_op s op)).
  rewrite write_idx_ops_main; [done|]. apply index_puts_are_idx_ops.
Qed.

(** After a successful [put], the entry of the new value is in the sublevel
    of every index whose getter returned. *)
Lemma put_entry_present coll key value s config iv :
  result (put coll key value s) = inr tt →
  config ∈ configs coll →
  getter config value = Returns iv →
  sublevel_store (after (put coll key value s)) (sublevel config) !! (iv, key)
  = Some ""%string.
Proof.
  intros ->%put_success Hin Hg. simpl.
  change (write (?op :: ?ops) ?s) with (write ops (apply_op s op)).
  apply write_puts_present.
  - apply index_puts_are_puts.
  - by intros sub' ck' p (c & iv' & _ & _ & [= _ _ ->])%index_puts_inv.
  - right. apply list_elem_of_omap. exists config. split; [done|].
    unfold index_put. by rewrite Hg.
Qed.

(** ** Put, then get and query *)

(** C3 (as amended): after [put(k, v)] succeeds, [get(k)] returns [v]; and
    for every registered index whose getter is defined on [v], whose
    ordering is lawful and under which [k] sorts strictly below the
    high-value constant, [query] on the derived value returns the record of
    [k], which is [v], exactly once. *)
Theorem put_then_get_and_query coll key value s :
  result (put coll key value s) = inr tt →
  let s' := after (put coll key value s) in
  get key s' = Some value ∧
  ∀ (indexName : string) config iv,
    registry_get (indexes coll) indexName = Some config →
    getter config value = Returns iv →
    lawful (keyEncoding config) →
    keyEncoding config key (AStr high_value) = Lt →
    result (query coll indexName iv s') = inr (query_hits config iv s').*2 ∧
    filter (fun h => h.1 = key) (query_hits config iv s') = [(key, value)].
Proof.
  intros Hok s'.
  assert (get key s' = Some value) as Hget.
  { unfold get, s'. rewrite put_main by done. apply lookup_insert_eq. }
  split; [done|].
  intros indexName config iv Hreg Hg Hlaw Hbelow. split.
  - by rewrite (query_registered _ _ config).
  - apply query_hits_once; [by apply NoDup_scan_keys| |done].
    apply elem_of_scan_keys; [done|]. split; [|done].
    unfold s'. erewrite put_entry_present; eauto using registry_get_configs.
Qed.

(** ** Delete *)

Lemma del_main coll key value s :
  get key s = Some value →
  result (del coll key s) = inr tt →
  main (after (del coll key s)) = delete key (main s).
Proof.
  intros Hget Hok.
  destruct (del_cases coll key value s Hget)
    as [[_ Hdel]|(pre & c & e & post & _ & _ & _ & Hdel)];
    rewrite Hdel in *; [|done].
  simpl. change (write (?op :: ?ops) ?s) with (write ops (apply_op s op)).
  rewrite write_idx_ops_main; [done|]. apply index_dels_are_idx_ops.
Qed.

(** C4: for a present key [k], after [delete(k)] completes, [get(k)] is
    absent and no query on a registered index, for any value, returns a
    record fetched under [k]. *)
Theorem del_then_get_and_query coll key value s :
  get key s = Some value →
  result (del coll key s) = inr tt →
  let s' := after (del coll key s) in
  get key s' = None ∧
  ∀ (indexName : string) config (iv : atom),
    registry_get (indexes coll) indexName = Some config →
    result (query coll indexName iv s') = inr (query_hits config iv s').*2 ∧
    key ∉ (query_hits config iv s').*1.
Proof.
  intros Hget Hok s'.
  assert (get key s' = None) as Hnone.
  { unfold get, s'. rewrite (del_main _ _ value) by done. apply lookup_delete_eq. }
  split; [done|].
  intros indexName config iv Hreg. split.
  - by rewrite (query_registered _ _ config).
  - intros ([k r] & Hk & Hin)%list_elem_of_fmap. simpl in Hk. subst k.
    apply elem_of_query_hits in Hin as [_ Hr].
    unfold get in Hnone. congruence.
Qed.

(** C7: [delete(k)] of an absent key returns successfully, stages no
    operation and leaves the main sublevel and every index sublevel as
    they were. *)
Theorem del_absent_noop coll key s :
  get key s = None →
  del coll key s = mkOutcome (inr tt) [] s.
Proof. intros Hget. unfold del. by rewrite Hget. Qed.

(** ** Unknown index *)

(** A query never changes the store and stages nothing.  When
    [this.indexes[indexName]] is [undefined] it fails with [IndexNotFound];
    when it is a member that the object inherits, such as [toString], the
    test of line 168 lets it pass and the query fails with a [TypeError];
    when it is a configuration the query returns the records of its hits. *)
Lemma query_by_lookup coll (indexName : string) (value : atom) s :
  after (query coll indexName value s) = s ∧
  staged (query coll indexName value s) = [] ∧
  match indexes_lookup coll indexName with
  | Absent => result (query coll indexName value s) = inl (IndexNotFound indexName)
  | Inherited => result (query coll indexName value s) = inl TypeError
  | Found config =>
      result (query coll indexName value s) = inr (query_hits config value s).*2
  end.
Proof.
  unfold query.
  destruct (indexes_lookup coll indexName) as [config| |]; [|done|done].
  rewrite query_hits_records.
  destruct (scan_keys config value s) as [|k keys] eqn:Hkeys; [done|].
  by rewrite omap_id_getMany.
Qed.

(** ** A getter that raises *)

(** C9 (as amended): if a getter raises during [put(key, value)], the put
    surfaces the failure of the first getter that raised and never writes
    its batch, so the main sublevel and every index sublevel are as before
    the call; the batch it drops already holds the primary put and the index
    puts of the indexes before the one that raised. *)
Theorem put_getter_raises coll key value s :
  (∃ config, config ∈ configs coll ∧ raises value config) →
  after (put coll key value s) = s ∧
  ∃ pre config e post,
    configs coll = pre ++ config :: post ∧
    Forall (fun c => ¬ raises value c) pre ∧
    getter config value = Throws e ∧
    result (put coll key value s) = inl (GetterFailure e) ∧
    staged (put coll key value s) =
      BPut key value :: omap (index_put key value) pre.
Proof.
  intros (c0 & Hin & Hraise).
  destruct (put_cases coll key value s)
    as [[Hall _]|(pre & c & e & post & Hcfgs & Hpre & Hc & ->)].
  - exfalso. by apply (proj1 (Forall_forall _ _) Hall c0).
  - split; [done|]. by exists pre, c, e, post.
Qed.

(** ** Frame *)

(** C10: every operation staged by [put(k, v)] is a put, and an index entry
    present before the call whose composite key differs from
    [(getter(v), k)] for every index is present with the same payload
    afterwards. *)
Theorem put_frame coll key value s (sub : string) (ck : entrykey) (payload : string) :
  sublevel_store s sub !! ck = Some payload →
  (∀ config iv, config ∈ configs coll →
     getter config value = Returns iv → ck ≠ (iv, key)) →
  Forall (fun op => is_put op = true) (staged (put coll key value s)) ∧
  sublevel_store (after (put coll key value s)) sub !! ck = Some payload.
Proof.
  intros Hs Hdiff.
  destruct (put_cases coll key value s)
    as [[_ ->]|(pre & c & e & post & _ & _ & _ & ->)];
    cbn [staged after].
  - split.
    + constructor; [done|]. apply index_puts_are_puts.
    + apply write_puts_preserve; [| |done].
      * constructor; [done|]. apply index_puts_are_puts.
      * intros p [?|Hin]%elem_of_cons; [done|].
        apply index_puts_inv in Hin as (c & iv & Hc & Hg & [= _ -> _]).
        by apply (Hdiff c iv).
  - split; [|done]. constructor; [done|]. apply index_puts_are_puts.
Qed.

(** ** Scan bounds *)

(** C5 (as amended): the upper bound of the scan is the composite key
    [(value, U+FFFF)], a fixed constant and not the maximum of the ordering:
    under a lawful ordering the entry [(iv, k)] falls inside the scanned
    range exactly when [iv] is the queried value and [k] sorts strictly
    below that constant. *)
Theorem scan_upper_bound (enc : KeyEncoding) (value iv key : atom) :
  lawful enc →
  in_range enc (lowerBound value) (upperBound value) (entry_array (iv, key)) ↔
  iv = value ∧ enc key (AStr [65535%N]) = Lt.
Proof. intros Hlaw. by apply in_scan_range. Qed.

(** ** The registry *)

Variable get_prop : V → string → option atom.

Lemma registry_set_names (name n : string) config
    (reg : list (string * IndexConfig V)) :
  n ∈ (registry_set name config reg).*1 ↔ n = name ∨ n ∈ reg.*1.
Proof.
  induction reg as [|[n' c'] reg IH]; simpl.
  - rewrite list_elem_of_singleton, elem_of_nil. tauto.
  - destruct (decide (n' = name)) as [->|Hne]; simpl.
    + rewrite elem_of_cons. tauto.
    + rewrite !elem_of_cons, IH. tauto.
Qed.

Lemma registry_set_wf (prefix name : string) config
    (reg : list (string * IndexConfig V)) :
  sublevel config = ("idx_" +:+ prefix +:+ "_" +:+ name)%string →
  registry_wf prefix reg → registry_wf prefix (registry_set name config reg).
Proof.
  intros Hsub [Hnd Hall]. split.
  - induction reg as [|[n' c'] reg IH]; simpl.
    + apply NoDup_singleton.
    + apply NoDup_cons in Hnd as [Hn' Hnd].
      apply Forall_cons in Hall as [_ Hall].
      destruct (decide (n' = name)) as [->|Hne]; simpl.
      * by apply NoDup_cons.
      * apply NoDup_cons. split; [|by apply IH].
        rewrite registry_set_names. intros [?|?]; done.
  - induction Hall as [|[n' c'] reg Hnc Hall IH]; simpl.
    + by constructor.
    + apply NoDup_cons in Hnd as [_ Hnd].
      destruct (decide (n' = name)) as [->|Hne].
      * by constructor.
      * constructor; [done|by apply IH].
Qed.

Lemma register_indexes_wf (prefix : string) (entries : list (string * IndexDef V))
    (reg reg' : list (string * IndexConfig V)) (proto proto' : option (IndexConfig V)) :
  registry_wf prefix reg →
  register_indexes get_prop prefix entries reg proto = inr (reg', proto') →
  registry_wf prefix reg'.
Proof.
  revert reg proto. induction entries as [|[name def] entries IH];
    intros reg proto Hwf; simpl.
  - by intros [= <- _].
  - destruct (parseIndexDefinition get_prop name def) as [e|[g enc]]; [done|].
    destruct (decide (name = "__proto__"%string)).
    + by apply IH.
    + apply IH. by apply registry_set_wf.
Qed.

Lemma construct_wf (prefix : string) (entries : list (string * IndexDef V)) coll :
  construct get_prop prefix entries = inr coll →
  registry_wf prefix (indexes coll).
Proof.
  unfold construct.
  destruct (register_indexes get_prop prefix entries [] None) as [e|[reg proto]] eqn:Hreg;
    [done|].
  intros [= <-]. simpl. eapply register_indexes_wf; [|done].
  split; [apply NoDup_nil_2 | constructor].
Qed.

(** Two registered indexes never share a sublevel. *)
Lemma registry_wf_sublevel_inj (prefix : string)
    (reg : list (string * IndexConfig V)) (c c' : IndexConfig V) :
  registry_wf prefix reg →
  c ∈ reg.*2 → c' ∈ reg.*2 → sublevel c = sublevel c' → c = c'.
Proof.
  intros [Hnd Hall] ([n c0] & -> & Hin)%list_elem_of_fmap
    ([n' c0'] & -> & Hin')%list_elem_of_fmap Hsub. simpl in *.
  rewrite Forall_forall in Hall.
  pose proof (Hall _ Hin) as H1. pose proof (Hall _ Hin') as H2. simpl in *.
  rewrite H1, H2 in Hsub.
  do 3 apply (inj (String.append _)) in Hsub. subst n'.
  clear Hall H1 H2.
  induction reg as [|[m d] reg IH]; [by apply elem_of_nil in Hin|].
  simpl in Hnd. apply NoDup_cons in Hnd as [Hm Hnd].
  apply elem_of_cons in Hin as [Heq|Hin];
    apply elem_of_cons in Hin' as [Heq'|Hin']; simplify_eq.
  - done.
  - exfalso. apply Hm. by apply (list_elem_of_fmap_2 fst) in Hin'.
  - exfalso. apply Hm. by apply (list_elem_of_fmap_2 fst) in Hin.
  - by apply IH.
Qed.

(** The index sublevels after a successful [put] on a collection built by
    the constructor: the entry of the new value is there, every other entry
    is as before. *)
Lemma put_sublevel_lookup (prefix : string) coll key value s config (iv k : atom) :
  registry_wf prefix (indexes coll) →
  result (put coll key value s) = inr tt →
  config ∈ configs coll →
  sublevel_store (after (put coll key value s)) (sublevel config) !! (iv, k) =
  if decide (k = key ∧ getter config value = Returns iv) then Some ""%string
  else sublevel_store s (sublevel config) !! (iv, k).
Proof.
  intros Hwf Hok Hin.
  destruct (decide (k = key ∧ getter config value = Returns iv)) as [[-> Hg]|Hno].
  { by apply put_entry_present. }
  rewrite (put_success _ _ _ _ Hok). cbn [after].
  change (write (?op :: ?ops) ?s) with (write ops (apply_op s op)).
  assert (∀ p, BPutIdx (sublevel config) (iv, k) p
               ∉ omap (index_put key value) (configs coll)) as Hnot.
  { intros p (c & iv' & Hc & Hg & [= Hsub -> ->])%index_puts_inv.
    apply Hno. split; [done|].
    by rewrite (registry_wf_sublevel_inj prefix (indexes coll) config c). }
  destruct (sublevel_store s (sublevel config) !! (iv, k)) as [p|] eqn:Hs.
  - apply write_puts_preserve; [apply index_puts_are_puts|exact Hnot|].
    by rewrite apply_op_lookup.
  - destruct (sublevel_store (write _ _) _ !! _) as [p|] eqn:Hafter; [|done].
    apply write_puts_lookup_inv in Hafter as [H|[[p' Hp]|(op & Hop & Hput)]].
    + rewrite apply_op_lookup in H. congruence.
    + by apply Hnot in Hp.
    + pose proof (index_puts_are_puts key value (configs coll)) as Hall.
      rewrite Forall_forall in Hall. apply Hall in Hop. congruence.
Qed.

Lemma empty_store_lookup (sub : string) (ck : entrykey) :
  sublevel_store (V:=V) empty_store sub !! ck = None.
Proof. unfold sublevel_store. simpl. by rewrite lookup_empty. Qed.

Lemma put_result_store coll key value s s0 :
  result (put coll key value s) = result (put coll key value s0).
Proof.
  unfold put. by destruct (stage_index_puts _ _ _ _) as [batch [e|]].
Qed.

(** ** Prefix safety *)

(** A sublevel that holds, under the queried value, the entry of one key
    only. *)
Lemma query_hits_single config (value : atom) s (k1 : atom) (v1 : V) :
  lawful (keyEncoding config) →
  (∀ key, is_Some (sublevel_store s (sublevel config) !! (value, key)) ↔ key = k1) →
  main s !! k1 = Some v1 →
  (∀ h, h ∈ query_hits config value s → h = (k1, v1)) ∧
  (keyEncoding config k1 (AStr high_value) = Lt →
   query_hits config value s = [(k1, v1)]).
Proof.
  intros Hlaw Honly Hmain. split.
  - intros [k r] [Hk Hr]%elem_of_query_hits.
    apply elem_of_scan_keys in Hk as [Hk _]; [|done].
    apply Honly in Hk as ->. congruence.
  - intros Hbelow.
    assert (scan_keys config value s = [k1]) as Hscan.
    { apply Permutation_singleton_r, NoDup_Permutation.
      - by apply NoDup_scan_keys.
      - apply NoDup_singleton.
      - intros k. rewrite elem_of_scan_keys, list_elem_of_singleton, Honly by done.
        split; [by intros [-> _] | by intros ->]. }
    unfold query_hits. rewrite Hscan. simpl. by rewrite Hmain.
Qed.

(** On a collection built by the constructor, with an index of lawful
    ordering, after a record of index value "a" and a record of index value
    "ab" were put under distinct keys into the empty store, in either order,
    [query(I, "a")] returns no record but the one indexed under "a", and so
    not the one indexed under "ab"; it returns that record when its key
    sorts below the high-value constant. *)
Theorem prefix_safety (prefix : string) (entries : list (string * IndexDef V))
    coll (indexName : string) config (k1 k2 : atom) (v1 v2 : V) (a_first : bool) :
  construct get_prop prefix entries = inr coll →
  registry_get (indexes coll) indexName = Some config →
  lawful (keyEncoding config) →
  k1 ≠ k2 →
  getter config v1 = Returns (AStr (str "a")) →
  getter config v2 = Returns (AStr (str "ab")) →
  result (put coll k1 v1 empty_store) = inr tt →
  result (put coll k2 v2 empty_store) = inr tt →
  let s' :=
    (if a_first
     then after (put coll k2 v2 (after (put coll k1 v1 empty_store)))
     else after (put coll k1 v1 (after (put coll k2 v2 empty_store)))) in
  let hits := query_hits config (AStr (str "a")) s' in
  result (query coll indexName (AStr (str "a")) s') = inr (hits.*2) ∧
  (∀ h, h ∈ hits → h = (k1, v1)) ∧
  (k2 ∉ hits.*1) ∧
  (keyEncoding config k1 (AStr high_value) = Lt → hits = [(k1, v1)]).
Proof.
  intros Hcons Hreg Hlaw Hne Hg1 Hg2 Hok1 Hok2 s' hits.
  apply construct_wf in Hcons.
  pose proof (registry_get_configs _ _ _ Hreg) as Hin.
  assert (∀ key (o : option string),
    is_Some (if decide (key = k1 ∧ Returns (AStr (str "a")) = Returns (AStr (str "a")))
             then Some ""%string else o) ↔ key = k1 ∨ is_Some o) as Hk1.
  { intros key o. destruct (decide (key = k1 ∧ _)) as [[-> _]|Hd].
    - split; [by left | by eexists].
    - split; [by right|]. intros [->|?]; [|done]. by destruct Hd. }
  assert (∀ key (o : option string),
    (if decide (key = k2 ∧ Returns (AStr (str "ab")) = Returns (AStr (str "a")))
     then Some ""%string else o) = o) as Hk2.
  { intros key o. destruct (decide (key = k2 ∧ _)) as [[_ Hd]|?]; [|done].
    by cbv in Hd. }
  assert ((∀ key, is_Some (sublevel_store s' (sublevel config)
             !! (AStr (str "a"), key)) ↔ key = k1) ∧
          main s' !! k1 = Some v1) as [Honly Hmain].
  { unfold s'. destruct a_first.
    - assert (result (put coll k2 v2 (after (put coll k1 v1 empty_store))) = inr tt)
        as Hok2' by (by rewrite (put_result_store _ _ _ _ empty_store)).
      split.
      + intros key.
        rewrite (put_sublevel_lookup prefix), (put_sublevel_lookup prefix) by done.
        rewrite Hg1, Hg2, Hk2, Hk1, empty_store_lookup.
        split; [intros [?|[? ?]]; done | by left].
      + rewrite !put_main by done.
        rewrite lookup_insert_ne by done. apply lookup_insert_eq.
    - assert (result (put coll k1 v1 (after (put coll k2 v2 empty_store))) = inr tt)
        as Hok1' by (by rewrite (put_result_store _ _ _ _ empty_store)).
      split.
      + intros key.
        rewrite (put_sublevel_lookup prefix), (put_sublevel_lookup prefix) by done.
        rewrite Hg1, Hg2, Hk2, Hk1, empty_store_lookup.
        split; [intros [?|[? ?]]; done | by left].
      + rewrite !put_main by done. apply lookup_insert_eq. }
  destruct (query_hits_single config (AStr (str "a")) s' k1 v1 Hlaw Honly Hmain)
    as [Hall Hone].
  split; [by rewrite (query_registered _ _ config)|].
  split; [done|]. split; [|done].
  intros ([k r] & Hk & Hh)%list_elem_of_fmap.
  apply Hall in Hh. simpl in Hk. congruence.
Qed.

End Properties.

(** * Scenarios *)

Lemma users_byAge : registry_get (indexes users) "byAge" = Some byAge_config.
Proof. reflexivity. Qed.

Lemma users_configs : configs users = [byAge_config; byName_config].
Proof. reflexivity. Qed.

(** C1 (the code at the failing input): both puts succeed; afterwards the
    key "u1" holds [{age: 31}] and the sublevel of [byAge] holds the entry of
    the current value 31 and still the entry of the previous value 30, so the
    collection invariant is broken. *)
Theorem put_overwrite_breaks_invariant :
  result (put users u1 (aged 30) empty_store) = inr tt ∧
  result (put users u1 (aged 31) store_30) = inr tt ∧
  main store_31 !! u1 = Some (aged 31) ∧
  sublevel_store store_31 "idx_users_byAge" !! (ANum 31, u1) = Some ""%string ∧
  sublevel_store store_31 "idx_users_byAge" !! (ANum 30, u1) = Some ""%string ∧
  ¬ collection_invariant users store_31.
Proof.
  repeat (split; [vm_compute; reflexivity|]).
  intros Hinv.
  assert (byAge_config ∈ configs users) as Hin
    by (apply (registry_get_configs users "byAge"), users_byAge).
  assert (getter byAge_config (aged 31) = Returns (ANum 30)) as Hg.
  { apply (Hinv u1 (aged 31) byAge_config (ANum 30)); [reflexivity|exact Hin|].
    exists ""%string. vm_compute. reflexivity. }
  vm_compute in Hg. discriminate.
Qed.

(** C2 (the code at the failing input): after [put("u1", {age: 30})] and
    [put("u1", {age: 31})], the query for age 30 still returns the record of
    "u1", now [{age: 31}]; the query for age 31 returns it once. *)
Theorem query_after_overwrite :
  byAge (aged 30) = Returns (ANum 30) ∧
  byAge (aged 31) = Returns (ANum 31) ∧
  result (query users "byAge" (ANum 30) store_31) = inr [aged 31] ∧
  query_hits byAge_config (ANum 30) store_31 = [(u1, aged 31)] ∧
  result (query users "byAge" (ANum 31) store_31) = inr [aged 31].
Proof. repeat split; vm_compute; reflexivity. Qed.

(** C6 (the code at the failing input): the three puts succeed; "u1" holds
    a record of index value "a" and "u2" one of index value "ab"; the query
    for "a" returns both, the second through the entry that the overwrite of
    "u2" left behind. *)
Theorem query_prefix_after_overwrite :
  result (put users u2 (named "a") empty_store) = inr tt ∧
  result (put users u2 (named "ab")
    (after (put users u2 (named "a") empty_store))) = inr tt ∧
  result (put users u1 (named "a")
    (after (put users u2 (named "ab")
      (after (put users u2 (named "a") empty_store))))) = inr tt ∧
  get u1 store_ab = Some (named "a") ∧
  get u2 store_ab = Some (named "ab") ∧
  getter byName_config (named "a") = Returns (AStr (str "a")) ∧
  getter byName_config (named "ab") = Returns (AStr (str "ab")) ∧
  result (query users "byName" (AStr (str "a")) store_ab)
    = inr [named "a"; named "ab"].
Proof. repeat split; vm_compute; reflexivity. Qed.

(** C8 (the code at the failing input): "toString" is not a registered
    name, yet [this.indexes["toString"]] is the function that every object
    inherits, the test of line 168 passes, and the query fails with a
    [TypeError] and not with [IndexNotFound]; a name that the object does
    not inherit gets [IndexNotFound]. *)
Theorem query_inherited_name :
  registry_get (indexes users) "toString" = None ∧
  indexes_proto users = None ∧
  result (query users "toString" (ANum 30) empty_store) = inl TypeError ∧
  after (query users "toString" (ANum 30) empty_store) = empty_store ∧
  result (query users "byGone" (ANum 30) empty_store)
    = inl (IndexNotFound "byGone").
Proof. repeat split; vm_compute; reflexivity. Qed.

(** C3 (as stated, refuted): the put under the key U+FFFF succeeds and the
    getter of [byAge] is defined on the value, yet the query for the derived
    value returns nothing. *)
Lemma put_high_key_not_queried :
  result (put users (AStr high_value) (aged 30) empty_store) = inr tt ∧
  get (AStr high_value) store_high = Some (aged 30) ∧
  getter byAge_config (aged 30) = Returns (ANum 30) ∧
  result (query users "byAge" (ANum 30) store_high) = inr [].
Proof. repeat split; vm_compute; reflexivity. Qed.

Lemma put_then_get_and_query_witness :
  get u1 store_30 = Some (aged 30) ∧
  result (query users "byAge" (ANum 30) store_30)
    = inr (query_hits byAge_config (ANum 30) store_30).*2 ∧
  filter (fun h => h.1 = u1) (query_hits byAge_config (ANum 30) store_30)
    = [(u1, aged 30)].
Proof.
  destruct (put_then_get_and_query users u1 (aged 30) empty_store eq_refl)
    as [Hget Hq].
  split; [exact Hget|].
  apply (Hq "byAge"%string byAge_config (ANum 30));
    [reflexivity | reflexivity | exact charwise_lawful | reflexivity].
Defined.

Lemma del_then_get_and_query_witness :
  get u1 (after (del users u1 store_30)) = None ∧
  u1 ∉ (query_hits byAge_config (ANum 30) (after (del users u1 store_30))).*1.
Proof.
  destruct (del_then_get_and_query users u1 (aged 30) store_30 eq_refl eq_refl)
    as [Hget Hq].
  split; [exact Hget|].
  exact (proj2 (Hq "byAge"%string byAge_config (ANum 30) eq_refl)).
Defined.

(** C5 (as stated, refuted): the entry of the stored key U+FFFF is outside
    the scanned range, and the constant does not sort strictly after that
    key. *)
Lemma high_key_outside_scan :
  ¬ in_range charwise (lowerBound (ANum 30)) (upperBound (ANum 30))
      (entry_array (ANum 30, AStr high_value)) ∧
  charwise (AStr high_value) (AStr high_value) ≠ Lt.
Proof.
  split.
  - intros [_ H]. vm_compute in H. discriminate.
  - vm_compute. discriminate.
Qed.

Lemma scan_upper_bound_witness :
  in_range charwise (lowerBound (ANum 30)) (upperBound (ANum 30))
    (entry_array (ANum 30, u1)) ↔
  ANum 30 = ANum 30 ∧ charwise u1 (AStr [65535%N]) = Lt.
Proof. exact (scan_upper_bound charwise (ANum 30) (ANum 30) u1 charwise_lawful). Defined.

Lemma prefix_safety_witness :
  result (query users "byName" (AStr (str "a"))
    (after (put users u2 (named "ab") (after (put users u1 (named "a") empty_store)))))
  = inr [named "a"].
Proof.
  destruct (prefix_safety record_prop "users" users_indexes users "byName"
    byName_config u1 u2 (named "a") (named "ab") true
    eq_refl eq_refl charwise_lawful) as (Hq & _ & _ & Hone).
  - vm_compute. discriminate.
  - reflexivity.
  - reflexivity.
  - reflexivity.
  - reflexivity.
  - cbv zeta in Hq, Hone. rewrite Hq, (Hone eq_refl). reflexivity.
Defined.

Lemma del_absent_noop_witness :
  del users u1 empty_store = mkOutcome (inr tt) [] empty_store.
Proof. exact (del_absent_noop users u1 empty_store eq_refl). Defined.

(** C9 (as stated, refuted): [byCity] raises on [{age: 30}], and when it
    does the batch already holds the primary put and the put of [byAge]. *)
Lemma put_stages_before_getter_raises :
  getter byCity_config (aged 30) = Throws "TypeError" ∧
  configs strict_users = [byAge_config; byCity_config] ∧
  staged (put strict_users u1 (aged 30) empty_store) =
    [BPut u1 (aged 30); BPutIdx "idx_users_byAge" (ANum 30, u1) ""] ∧
  staged (put strict_users u1 (aged 30) empty_store) ≠ [].
Proof. repeat split; try (vm_compute; reflexivity). vm_compute. discriminate. Qed.

Lemma put_getter_raises_witness :
  after (put strict_users u1 (aged 30) empty_store) = empty_store ∧
  ∃ pre config e post,
    configs strict_users = pre ++ config :: post ∧
    Forall (fun c => ¬ raises (aged 30) c) pre ∧
    getter config (aged 30) = Throws e ∧
    result (put strict_users u1 (aged 30) empty_store) = inl (GetterFailure e) ∧
    staged (put strict_users u1 (aged 30) empty_store) =
      BPut u1 (aged 30) :: omap (index_put u1 (aged 30)) pre.
Proof.
  apply (put_getter_raises strict_users u1 (aged 30) empty_store).
  exists byCity_config. split.
  - apply (registry_get_configs strict_users "byCity"). reflexivity.
  - exists "TypeError"%string. reflexivity.
Defined.

Lemma put_frame_witness :
  Forall (fun op => is_put op = true) (staged (put users u1 (aged 31) store_30)) ∧
  sublevel_store store_31 "idx_users_byAge" !! (ANum 30, u1) = Some ""%string.
Proof.
  apply (put_frame users u1 (aged 31) store_30 "idx_users_byAge" (ANum 30, u1) "").
  - reflexivity.
  - intros config iv Hin Hg. rewrite users_configs in Hin.
    apply elem_of_cons in Hin as [->|Hin].
    + vm_compute in Hg. intros Heq. congruence.
    + apply list_elem_of_singleton in Hin as ->. vm_compute in Hg. discriminate.
Defined.

(** * Further properties of the write and query paths *)

Section WritePath.

Context {V : Type}.
Implicit Types (s : Store V) (coll : IdexedSubLevel V) (config : IndexConfig V).
Implicit Types (batch ops : list (BatchOp V)) (key : atom) (value : V).

#[local] Instance touches_dec (op : BatchOp V) (sub : string) (ck : entrykey) :
  Decision (touches op sub ck).
Proof. destruct op; simpl; apply _. Defined.

(** A write leaves alone the entries that none of its operations names. *)
Lemma write_untouched ops s (sub : string) (ck : entrykey) :
  Forall (fun op => ¬ touches op sub ck) ops →
  sublevel_store (write ops s) sub !! ck = sublevel_store s sub !! ck.
Proof.
  intros Hops. revert s.
  induction Hops as [|op ops Hop _ IH]; intros s; [done|].
  change (write (op :: ops) s) with (write ops (apply_op s op)).
  rewrite IH, apply_op_lookup.
  destruct op as [k v|k|sub' ck' p|sub' ck']; simpl in Hop; try done;
    by rewrite decide_False.
Qed.

(** A write without puts adds no entry. *)
Lemma write_no_puts_lookup_inv ops s (sub : string) (ck : entrykey) (p : string) :
  Forall (fun op => is_put op = false) ops →
  sublevel_store (write ops s) sub !! ck = Some p →
  sublevel_store s sub !! ck = Some p.
Proof.
  intros Hops. revert s.
  induction Hops as [|op ops Hop _ IH]; intros s Hafter; [done|].
  change (write (op :: ops) s) with (write ops (apply_op s op)) in Hafter.
  apply IH in Hafter. rewrite apply_op_lookup in Hafter.
  destruct op as [k v|k|sub' ck' p'|sub' ck']; try done.
  by destruct (decide (sub' = sub ∧ ck' = ck)).
Qed.

(** A staged delete removes its entry when no put is staged. *)
Lemma write_dels_absent ops s (sub : string) (ck : entrykey) :
  Forall (fun op => is_put op = false) ops →
  BDelIdx sub ck ∈ ops →
  sublevel_store (write ops s) sub !! ck = None.
Proof.
  intros Hops. revert s.
  induction Hops as [|op ops Hop Hops IH]; intros s Hin.
  { by apply elem_of_nil in Hin. }
  change (write (op :: ops) s) with (write ops (apply_op s op)).
  apply elem_of_cons in Hin as [<-|Hin]; [|by apply IH].
  destruct (sublevel_store (write ops _) sub !! ck) as [p|] eqn:Hafter; [|done].
  apply write_no_puts_lookup_inv in Hafter; [|done].
  rewrite apply_op_lookup in Hafter. by rewrite decide_True in Hafter.
Qed.

Lemma index_dels_inv key value (cfgs : list (IndexConfig V)) (op : BatchOp V) :
  op ∈ omap (index_del key value) cfgs →
  ∃ config iv, config ∈ cfgs ∧ getter config value = Returns iv ∧
               op = BDelIdx (sublevel config) (iv, key).
Proof.
  intros (c & Hc & Hop)%list_elem_of_omap.
  unfold index_del in Hop. destruct (getter c value) as [e| |iv] eqn:Hg; try done.
  exists c, iv. by simplify_eq.
Qed.

Lemma index_dels_are_dels key value (cfgs : list (IndexConfig V)) :
  Forall (fun op => is_put op = false) (omap (index_del key value) cfgs).
Proof.
  apply Forall_forall. intros op (c & iv & _ & _ & ->)%index_dels_inv. done.
Qed.

(** The store after [del], whatever its outcome: unchanged, or the write of
    the primary delete and the index deletes of the old value. *)
Lemma del_after coll key s :
  after (del coll key s) = s ∨
  ∃ old, get key s = Some old ∧
    Forall (fun c => ¬ raises old c) (configs coll) ∧
    del coll key s =
    mkOutcome (inr tt) (BDel key :: omap (index_del key old) (configs coll))
      (write (omap (index_del key old) (configs coll)) (apply_op s (BDel key))).
Proof.
  destruct (get key s) as [old|] eqn:Hget.
  - destruct (del_cases coll key old s Hget)
      as [[Hall ->]|(pre & c & e & post & _ & _ & _ & ->)]; [|by left].
    right. by exists old.
  - left. by rewrite del_absent_noop.
Qed.

Lemma put_after coll key value s :
  after (put coll key value s) = s ∨
  (Forall (fun c => ¬ raises value c) (configs coll) ∧
   put coll key value s =
   mkOutcome (inr tt) (BPut key value :: omap (index_put key value) (configs coll))
     (write (omap (index_put key value) (configs coll)) (apply_op s (BPut key value)))).
Proof.
  destruct (put_cases coll key value s)
    as [[Hall ->]|(pre & c & e & post & _ & _ & _ & ->)]; [|by left].
  right. by split.
Qed.

(** ** When the writes succeed *)

(** A [put] that succeeded met no raising getter and staged the primary
    put and then, in registry order, one index put for every index whose
    getter is defined on the value; the store afterwards is the write of
    that batch. *)
Theorem put_success_batch coll key value s :
  result (put coll key value s) = inr tt →
  Forall (fun c => ¬ raises value c) (configs coll) ∧
  staged (put coll key value s) =
    BPut key value :: omap (index_put key value) (configs coll) ∧
  after (put coll key value s) = write (staged (put coll key value s)) s.
Proof.
  destruct (put_cases coll key value s)
    as [[Hall ->]|(pre & c & e & post & _ & _ & _ & ->)]; [done|].
  simpl. discriminate.
Qed.

(** A [del] that succeeded either found no record and did nothing, or met
    no raising getter on the stored record and staged the primary delete and
    then, in registry order, one index delete for every index whose getter
    is defined on that record; the store afterwards is the write of that
    batch. *)
Theorem del_success_batch coll key s :
  result (del coll key s) = inr tt →
  match get key s with
  | None => staged (del coll key s) = [] ∧ after (del coll key s) = s
  | Some old =>
      Forall (fun c => ¬ raises old c) (configs coll) ∧
      staged (del coll key s) =
        BDel key :: omap (index_del key old) (configs coll) ∧
      after (del coll key s) = write (staged (del coll key s)) s
  end.
Proof.
  destruct (get key s) as [old|] eqn:Hget.
  - destruct (del_cases coll key old s Hget)
      as [[Hall ->]|(pre & c & e & post & _ & _ & _ & ->)]; [done|].
    simpl. discriminate.
  - by rewrite del_absent_noop.
Qed.

(** A getter that raises on the stored record makes [del] fail with that
    failure and leave the store as it was. *)
Theorem del_getter_raises coll key old s :
  get key s = Some old →
  (∃ config, config ∈ configs coll ∧ raises old config) →
  after (del coll key s) = s ∧
  ∃ pre config e post,
    configs coll = pre ++ config :: post ∧
    Forall (fun c => ¬ raises old c) pre ∧
    getter config old = Throws e ∧
    result (del coll key s) = inl (GetterFailure e) ∧
    staged (del coll key s) = BDel key :: omap (index_del key old) pre.
Proof.
  intros Hget (c0 & Hin & Hraise).
  destruct (del_cases coll key old s Hget)
    as [[Hall _]|(pre & c & e & post & Hcfgs & Hpre & Hc & ->)].
  - exfalso. by apply (proj1 (Forall_forall _ _) Hall c0).
  - split; [done|]. by exists pre, c, e, post.
Qed.

(** ** Frames *)

(** [put] and [del] leave the records of the other keys alone. *)
Lemma other_keys_kept coll key value s (k : atom) :
  k ≠ key →
  get k (after (put coll key value s)) = get k s ∧
  get k (after (del coll key s)) = get k s.
Proof.
  intros Hne. unfold get. split.
  - destruct (put_after coll key value s) as [->|[_ ->]]; [done|].
    cbn [after]. rewrite write_idx_ops_main by apply index_puts_are_idx_ops.
    simpl. by rewrite lookup_insert_ne.
  - destruct (del_after coll key s) as [->|(old & _ & _ & ->)]; [done|].
    cbn [after]. rewrite write_idx_ops_main by apply index_dels_are_idx_ops.
    simpl. by rewrite lookup_delete_ne.
Qed.

(** [del(key)] stages deletes only, adds no index entry, and leaves alone
    every index entry of another key. *)
Lemma del_frame coll key s (sub : string) (ck : entrykey) :
  Forall (fun op => is_put op = false) (staged (del coll key s)) ∧
  (∀ p, sublevel_store (after (del coll key s)) sub !! ck = Some p →
        sublevel_store s sub !! ck = Some p) ∧
  (ck.2 ≠ key →
   sublevel_store (after (del coll key s)) sub !! ck = sublevel_store s sub !! ck).
Proof.
  destruct (get key s) as [old|] eqn:Hget; [|by rewrite del_absent_noop].
  destruct (del_cases coll key old s Hget)
    as [[_ ->]|(pre & c & e & post & _ & _ & _ & ->)]; cbn [staged after].
  - split; [constructor; [done|apply index_dels_are_dels]|]. split.
    + intros p Hp. apply write_no_puts_lookup_inv in Hp; [done|].
      constructor; [done|apply index_dels_are_dels].
    + intros Hne. apply write_untouched. constructor; [simpl; tauto|].
      apply Forall_forall.
      intros op (c & iv & _ & _ & ->)%index_dels_inv [_ <-]. by apply Hne.
  - split; [constructor; [done|apply index_dels_are_dels]|]. done.
Qed.

(** ** What every reachable store satisfies *)

Lemma put_keeps_index_complete coll key value s :
  index_complete coll s → index_complete coll (after (put coll key value s)).
Proof.
  intros Hinv.
  destruct (put_cases coll key value s)
    as [[Hall Hput]|(pre & c & e & post & _ & _ & _ & ->)]; [|done].
  assert (result (put coll key value s) = inr tt) as Hok by (by rewrite Hput).
  intros K V0 config iv HK Hin Hg.
  rewrite put_main in HK by done.
  destruct (decide (K = key)) as [->|Hne].
  - rewrite lookup_insert_eq in HK. simplify_eq. by apply put_entry_present.
  - rewrite lookup_insert_ne in HK by done.
    rewrite Hput. cbn [after].
    change (write (?op :: ?ops) ?s) with (write ops (apply_op s op)).
    apply write_puts_present.
    + apply index_puts_are_puts.
    + by intros sub' ck' p (c & iv' & _ & _ & [= _ _ ->])%index_puts_inv.
    + left. rewrite apply_op_lookup. by apply (Hinv K V0).
Qed.

Lemma del_keeps_index_complete coll key s :
  index_complete coll s → index_complete coll (after (del coll key s)).
Proof.
  intros Hinv K V0 config iv HK Hin Hg.
  destruct (decide (K = key)) as [->|Hne].
  - destruct (del_after coll key s) as [Heq|(old & Hget & _ & Hdel)].
    + rewrite Heq in *. by apply (Hinv key V0).
    + rewrite Hdel in HK. cbn [after] in HK.
      rewrite write_idx_ops_main in HK by apply index_dels_are_idx_ops.
      simpl in HK. by rewrite lookup_delete_eq in HK.
  - pose proof (other_keys_kept coll key V0 s K Hne) as [_ Hmain].
    unfold get in Hmain. rewrite Hmain in HK.
    destruct (del_frame coll key s (sublevel config) (iv, K)) as (_ & _ & ->).
    + by apply (Hinv K V0).
    + done.
Qed.

(** In every store reachable from the empty one, each present record has,
    in every index whose getter is defined on it, the entry of its current
    value, with the empty payload. *)
Lemma index_complete_reachable coll s :
  reachable coll s → index_complete coll s.
Proof.
  induction 1 as [|s key value _ IH|s key _ IH].
  - intros K V0 config iv HK. simpl in HK. by rewrite lookup_empty in HK.
  - by apply put_keeps_index_complete.
  - by apply del_keeps_index_complete.
Qed.

(** In every reachable store, a query on the derived value of a present
    record whose key sorts below the high-value constant returns that record
    exactly once. *)
Theorem reachable_query_finds coll s key value (indexName : string) config iv :
  reachable coll s →
  get key s = Some value →
  registry_get (indexes coll) indexName = Some config →
  getter config value = Returns iv →
  lawful (keyEncoding config) →
  keyEncoding config key (AStr high_value) = Lt →
  result (query coll indexName iv s) = inr (query_hits config iv s).*2 ∧
  filter (fun h => h.1 = key) (query_hits config iv s) = [(key, value)].
Proof.
  intros Hreach Hget Hreg Hg Hlaw Hbelow. split.
  - by rewrite (query_registered _ _ config).
  - apply query_hits_once; [by apply NoDup_scan_keys| |done].
    apply elem_of_scan_keys; [done|]. split; [|done].
    erewrite (index_complete_reachable coll s Hreach key value);
      eauto using registry_get_configs.
Qed.

(** The payload of an entry found after a write of puts. *)
Lemma write_puts_payload_inv ops s (sub : string) (ck : entrykey) (p : string) :
  Forall (fun op => is_put op = true) ops →
  sublevel_store (write ops s) sub !! ck = Some p →
  sublevel_store s sub !! ck = Some p ∨ BPutIdx sub ck p ∈ ops.
Proof.
  intros Hops. revert s.
  induction Hops as [|op ops Hop _ IH]; intros s Hafter; [by left|].
  change (write (op :: ops) s) with (write ops (apply_op s op)) in Hafter.
  apply IH in Hafter as [Hs|Hin]; [|right; by right].
  rewrite apply_op_lookup in Hs.
  destruct op as [k v|k|sub' ck' p'|sub' ck']; try by left.
  destruct (decide (sub' = sub ∧ ck' = ck)) as [[-> ->]|?]; [|by left].
  right. simplify_eq. by left.
Qed.

(** In every reachable store all index entries carry the empty payload. *)
Theorem reachable_payload_empty coll s (sub : string) (ck : entrykey) (p : string) :
  reachable coll s →
  sublevel_store s sub !! ck = Some p → p = ""%string.
Proof.
  intros Hreach. revert p.
  induction Hreach as [|s key value _ IH|s key _ IH]; intros p Hp.
  - by rewrite empty_store_lookup in Hp.
  - destruct (put_after coll key value s) as [Heq|[_ Hput]].
    + rewrite Heq in Hp. by apply IH.
    + rewrite Hput in Hp. cbn [after] in Hp.
      apply write_puts_payload_inv in Hp as [Hp|Hp];
        [|by apply index_puts_inv in Hp as (c & iv & _ & _ & [= _ _ ->])
         |apply index_puts_are_puts].
      rewrite apply_op_lookup in Hp. by apply IH.
  - apply IH. by apply (del_frame coll key s sub ck).
Qed.

(** ** Keeping the invariant *)

(** [del] keeps the collection invariant: an inconsistency is never the work
    of a delete. *)
Theorem del_keeps_collection_invariant coll key s :
  collection_invariant coll s →
  collection_invariant coll (after (del coll key s)).
Proof.
  intros Hinv K V0 config iv HK Hin.
  destruct (decide (K = key)) as [->|Hne].
  - destruct (del_after coll key s) as [Heq|(old & Hget & _ & Hdel)].
    + rewrite Heq in *. by apply Hinv.
    + rewrite Hdel in HK. cbn [after] in HK.
      rewrite write_idx_ops_main in HK by apply index_dels_are_idx_ops.
      simpl in HK. by rewrite lookup_delete_eq in HK.
  - pose proof (other_keys_kept coll key V0 s K Hne) as [_ Hmain].
    unfold get in Hmain. rewrite Hmain in HK.
    destruct (del_frame coll key s (sublevel config) (iv, K)) as (_ & _ & ->);
      [|done]. by apply Hinv.
Qed.

(** [del] keeps the index sublevels exact: the entries of the deleted record
    go, nothing else changes. *)
Theorem del_keeps_index_exact coll key s :
  index_exact coll s → index_exact coll (after (del coll key s)).
Proof.
  intros Hinv config iv K Hin.
  destruct (del_after coll key s) as [Heq|(old & Hget & _ & Hdel)].
  { rewrite Heq. by apply Hinv. }
  destruct (decide (K = key)) as [->|Hne].
  - rewrite Hdel. cbn [after].
    rewrite write_idx_ops_main by apply index_dels_are_idx_ops. simpl.
    rewrite lookup_delete_eq. split; [|by intros (V0 & ? & _)].
    intros [p Hp]. exfalso.
    assert (sublevel_store s (sublevel config) !! (iv, key) = Some p) as Hs.
    { apply write_no_puts_lookup_inv in Hp; [|apply index_dels_are_dels].
      exact Hp. }
    destruct (proj1 (Hinv config iv key Hin)) as (V0 & HV0 & Hg); [by exists p|].
    unfold get in Hget. simplify_eq.
    rewrite write_dels_absent in Hp; [done|apply index_dels_are_dels|].
    apply list_elem_of_omap. exists config. split; [done|].
    unfold index_del. by rewrite Hg.
  - pose proof (other_keys_kept coll key old s K Hne) as [_ Hmain].
    unfold get in Hmain. rewrite Hmain.
    destruct (del_frame coll key s (sublevel config) (iv, K)) as (_ & _ & ->);
      [|done]. by apply Hinv.
Qed.

(** Exact index sublevels satisfy the collection invariant. *)
Lemma index_exact_invariant coll s :
  index_exact coll s → collection_invariant coll s.
Proof.
  intros Hinv K V0 config iv HK Hin. rewrite (Hinv config iv K Hin). split.
  - intros (V1 & HV1 & Hg). congruence.
  - intros Hg. by exists V0.
Qed.

(** ** The query on exact index sublevels *)

(** The keys of the hits are the scanned keys whose record is present, in
    the order of the scan. *)
Lemma query_hits_fst config (value : atom) s :
  (query_hits config value s).*1 =
  filter (fun k => is_Some (main s !! k)) (scan_keys config value s).
Proof.
  unfold query_hits.
  induction (scan_keys config value s) as [|k keys IH]; [done|].
  rewrite filter_cons. cbn [omap list_omap].
  destruct (decide (is_Some (main s !! k))) as [[r Hr]|Hno].
  - rewrite Hr. simpl. f_equal. exact IH.
  - destruct (main s !! k) as [r|] eqn:Hk; [by destruct Hno|]. exact IH.
Qed.

Lemma NoDup_query_hits_keys config (value : atom) s :
  lawful (keyEncoding config) → NoDup (query_hits config value s).*1.
Proof.
  intros Hlaw. rewrite query_hits_fst.
  by apply NoDup_filter, NoDup_scan_keys.
Qed.

(** On exact index sublevels a query returns, once each, exactly the present
    records whose derived value is the queried one and whose key sorts below
    the high-value constant. *)
Theorem query_exact coll (indexName : string) config (value : atom) s :
  index_exact coll s →
  registry_get (indexes coll) indexName = Some config →
  lawful (keyEncoding config) →
  result (query coll indexName value s) = inr (query_hits config value s).*2 ∧
  NoDup (query_hits config value s).*1 ∧
  ∀ k r, (k, r) ∈ query_hits config value s ↔
         main s !! k = Some r ∧ getter config r = Returns value ∧
         keyEncoding config k (AStr high_value) = Lt.
Proof.
  intros Hinv Hreg Hlaw.
  split; [by rewrite (query_registered _ _ config)|].
  split; [by apply NoDup_query_hits_keys|].
  intros k r. rewrite elem_of_query_hits, elem_of_scan_keys by done.
  rewrite (Hinv config value k) by eauto using registry_get_configs.
  split.
  - intros [[(V0 & HV0 & Hg) Hbelow] Hr]. split; [done|]. split; [congruence|done].
  - intros (Hr & Hg & Hbelow). split; [|done]. split; [by exists r|done].
Qed.

(** ** Stated for the user of the write path *)

(** [put] and [del] leave the records of the other keys alone. *)
Theorem writes_keep_other_keys coll key value s (k : atom) :
  k ≠ key →
  get k (after (put coll key value s)) = get k s ∧
  get k (after (del coll key s)) = get k s.
Proof. apply other_keys_kept. Qed.

(** [del(key)] stages deletes only, adds no index entry, and leaves alone
    every index entry of another key. *)
Theorem del_index_frame coll key s (sub : string) (ck : entrykey) :
  Forall (fun op => is_put op = false) (staged (del coll key s)) ∧
  (∀ p, sublevel_store (after (del coll key s)) sub !! ck = Some p →
        sublevel_store s sub !! ck = Some p) ∧
  (ck.2 ≠ key →
   sublevel_store (after (del coll key s)) sub !! ck = sublevel_store s sub !! ck).
Proof. apply del_frame. Qed.

(** In every store reachable from the empty one, each present record has,
    in every index whose getter is defined on it, the entry of its current
    value, with the empty payload. *)
Theorem reachable_index_complete coll s :
  reachable coll s → index_complete coll s.
Proof. apply index_complete_reachable. Qed.

(** In any store, a query on a registered index of lawful ordering
    returns, once each, exactly the present records that have an entry under
    the queried value in the sublevel of the index and whose key sorts below
    the high-value constant: an entry whose record is gone is skipped, and a
    record without an entry is not found. *)
Theorem query_returns coll (indexName : string) config (value : atom) s :
  registry_get (indexes coll) indexName = Some config →
  lawful (keyEncoding config) →
  result (query coll indexName value s) = inr (query_hits config value s).*2 ∧
  NoDup (query_hits config value s).*1 ∧
  ∀ k r, (k, r) ∈ query_hits config value s ↔
         main s !! k = Some r ∧
         is_Some (sublevel_store s (sublevel config) !! (value, k)) ∧
         keyEncoding config k (AStr high_value) = Lt.
Proof.
  intros Hreg Hlaw.
  split; [by rewrite (query_registered _ _ config)|].
  split; [by apply NoDup_query_hits_keys|].
  intros k r. rewrite elem_of_query_hits, elem_of_scan_keys by done. tauto.
Qed.

(** ** Putting twice *)

(** A second [put] of the same key and value changes no record and no index
    entry, and ends as the first did. *)
Theorem put_twice coll key value s (k : atom) (sub : string) (ck : entrykey) :
  let s1 := after (put coll key value s) in
  let s2 := after (put coll key value s1) in
  result (put coll key value s1) = result (put coll key value s) ∧
  get k s2 = get k s1 ∧
  sublevel_store s2 sub !! ck = sublevel_store s1 sub !! ck.
Proof.
  cbv zeta. split; [apply put_result_store|].
  destruct (put_cases coll key value s)
    as [[Hall Hput]|(pre & c & e & post & _ & _ & _ & Hput)].
  - assert (result (put coll key value s) = inr tt) as Hok by (by rewrite Hput).
    assert (result (put coll key value (after (put coll key value s))) = inr tt)
      as Hok1 by (by rewrite (put_result_store _ _ _ _ s)).
    split.
    + unfold get. rewrite !put_main by done. by rewrite insert_insert_eq.
    + rewrite (put_success _ _ _ _ Hok1). cbn [after].
      change (write (?op :: ?ops) ?s) with (write ops (apply_op s op)).
      destruct (decide (Exists (fun op => touches op sub ck)
        (omap (index_put key value) (configs coll)))) as [Hex|Hno].
      * apply Exists_exists in Hex as (op & Hop & Htouch).
        pose proof Hop as (c & iv & Hc & Hg & ->)%index_puts_inv.
        destruct Htouch as [<- <-].
        rewrite (put_entry_present coll key value s c iv Hok Hc Hg).
        apply write_puts_present.
        -- apply index_puts_are_puts.
        -- by intros sub' ck' p (c' & iv' & _ & _ & [= _ _ ->])%index_puts_inv.
        -- by right.
      * rewrite write_untouched by (by apply (not_Exists_Forall _)).
        by rewrite apply_op_lookup.
  - assert (after (put coll key value s) = s) as Hs1 by (by rewrite Hput).
    by rewrite !Hs1.
Qed.

End WritePath.

(** * Further properties of the constructor *)

Section Constructor.

Context {V : Type}.
Variable get_prop : V → string → option atom.
Implicit Types (s : Store V) (coll : IdexedSubLevel V) (config : IndexConfig V).
Implicit Types (key : atom) (value : V).
Implicit Types (entries : list (string * IndexDef V)).
Implicit Types (reg : list (string * IndexConfig V)).

(** ** Parsing *)

(** The private method and the parser of the constructor accept the same
    definitions and return the same getter and ordering. *)
Theorem parsers_agree (name : string) (def : IndexDef V) :
  parseIndexDefinition get_prop name def =
  match parseIndexDefinition' get_prop def with
  | Some parsed => inr parsed
  | None => inl (InvalidIndexDefinition name)
  end.
Proof. by destruct def. Qed.

Lemma registered_valid (prefix name : string) (def : IndexDef V) :
  valid_def def →
  ∃ g enc, parseIndexDefinition get_prop name def = inr (g, enc) ∧
    registered get_prop prefix name def =
    Some (name, mkConfig g ("idx_" +:+ prefix +:+ "_" +:+ name)%string enc).
Proof.
  unfold registered.
  destruct def as [f|g field enc|]; simpl; [| |done]; intros _; eauto.
Qed.

(** ** The loop of the constructor *)

Lemma register_indexes_valid (prefix : string) entries reg
    (proto : option (IndexConfig V)) (res : list (string * IndexConfig V) * option (IndexConfig V)) :
  register_indexes get_prop prefix entries reg proto = inr res →
  Forall (fun nd => valid_def nd.2) entries.
Proof.
  revert reg proto. induction entries as [|[name def] entries IH];
    intros reg proto; simpl; [constructor|].
  destruct def as [f|g field enc|]; simpl; [| |done];
    destruct (decide (name = "__proto__"%string)); intros H%IH; by constructor.
Qed.

Lemma registry_set_fresh (name : string) config reg :
  name ∉ reg.*1 → registry_set name config reg = reg ++ [(name, config)].
Proof.
  induction reg as [|[n c] reg IH]; simpl; [done|].
  intros [Hne Hnot]%not_elem_of_cons.
  rewrite decide_False by done. by rewrite IH.
Qed.

Lemma register_indexes_fresh (prefix : string) entries reg reg'
    (proto proto' : option (IndexConfig V)) :
  NoDup (reg.*1 ++ entries.*1) →
  register_indexes get_prop prefix entries reg proto = inr (reg', proto') →
  reg' = reg ++ omap (fun nd => if decide (nd.1 = "__proto__"%string) then None
                                else registered get_prop prefix nd.1 nd.2) entries ∧
  (∀ def, ("__proto__"%string, def) ∈ entries →
     snd <$> registered get_prop prefix "__proto__" def = proto') ∧
  ("__proto__"%string ∉ entries.*1 → proto' = proto).
Proof.
  revert reg proto. induction entries as [|[name def] entries IH];
    intros reg proto Hnd; simpl.
  { intros [= <- <-]. rewrite app_nil_r. split; [done|]. split; [|done].
    intros def Hin. by apply elem_of_nil in Hin. }
  apply NoDup_app in Hnd as (Hreg & Hdisj & Hent).
  apply NoDup_cons in Hent as [Hname Hent].
  assert (name ∉ reg.*1) as Hfresh.
  { intros Hin. apply (Hdisj name Hin). by left. }
  unfold registered at 1.
  destruct (parseIndexDefinition get_prop name def) as [e|[g enc]] eqn:Hparse; [done|].
  destruct (decide (name = "__proto__"%string)) as [->|Hne].
  - intros Hreg'. apply IH in Hreg' as (-> & _ & Hproto).
    2:{ apply NoDup_app. split; [done|]. split; [|done].
        intros n Hn Hn'. apply (Hdisj n Hn). by right. }
    split; [done|]. split.
    + intros def' [[= ->]|Hin]%elem_of_cons.
      * unfold registered. rewrite Hparse. simpl. symmetry. by apply Hproto.
      * exfalso. apply Hname. by apply (list_elem_of_fmap_2 fst) in Hin.
    + intros Hnot. exfalso. apply Hnot. by left.
  - rewrite registry_set_fresh by done.
    intros Hreg'. apply IH in Hreg' as (-> & Hdef & Hproto).
    2:{ rewrite fmap_app. simpl. rewrite <- app_assoc. simpl.
        apply NoDup_app. split; [done|]. split.
        - intros n Hn [->|Hn']%elem_of_cons; [done|].
          apply (Hdisj n Hn). by right.
        - by apply NoDup_cons. }
    split; [by rewrite <- app_assoc|]. split.
    + intros def' [[= ? ?]|Hin]%elem_of_cons; [by subst|]. by apply Hdef.
    + intros [_ Hnot]%not_elem_of_cons. by apply Hproto.
Qed.

Lemma registered_names (prefix : string) entries :
  Forall (fun nd => valid_def nd.2) entries →
  (omap (fun nd => if decide (nd.1 = "__proto__"%string) then None
                   else registered get_prop prefix nd.1 nd.2) entries).*1
  = filter (fun n => n ≠ "__proto__"%string) entries.*1.
Proof.
  induction 1 as [|[name def] entries Hdef _ IH]; [done|].
  destruct (registered_valid prefix name def Hdef) as (g & enc & _ & Hreg).
  simpl in *. rewrite filter_cons.
  destruct (decide (name = "__proto__"%string)) as [->|Hne].
  - by rewrite decide_False by (by intros ?).
  - rewrite decide_True by done. rewrite Hreg. simpl. by f_equal.
Qed.

Lemma registry_get_None reg (name : string) :
  name ∉ reg.*1 → registry_get reg name = None.
Proof.
  induction reg as [|[n c] reg IH]; simpl; [done|].
  intros [Hne Hnot]%not_elem_of_cons.
  rewrite decide_False by done. by apply IH.
Qed.

Lemma registry_get_NoDup reg (name : string) config :
  NoDup reg.*1 → (name, config) ∈ reg → registry_get reg name = Some config.
Proof.
  induction reg as [|[n c] reg IH]; simpl.
  { intros _ Hin. by apply elem_of_nil in Hin. }
  intros [Hn Hnd]%NoDup_cons [Heq|Hin]%elem_of_cons.
  - simplify_eq. by rewrite decide_True.
  - rewrite decide_False; [by apply IH|].
    intros ->. apply Hn. by apply (list_elem_of_fmap_2 fst) in Hin.
Qed.

Lemma registry_get_elem reg (name : string) config :
  registry_get reg name = Some config → (name, config) ∈ reg.
Proof.
  induction reg as [|[n c] reg IH]; simpl; [done|].
  destruct (decide (n = name)) as [->|?].
  - intros [= ->]. by left.
  - intros ?. right. by apply IH.
Qed.

(** ** What the constructor returns *)

(** The constructor returns a collection only when every index definition
    is a function or an object. *)
Theorem construct_valid (p : string) entries coll :
  construct get_prop p entries = inr coll →
  Forall (fun nd => valid_def nd.2) entries.
Proof.
  unfold construct.
  destruct (register_indexes get_prop p entries [] None) as [e|res] eqn:Hreg; [done|].
  intros _. by apply register_indexes_valid in Hreg.
Qed.

(** For definitions with distinct names, a constructed collection has as
    own properties the names other than "__proto__", in the order given;
    [this.indexes[name]] finds for every given name the configuration parsed
    from its definition, with the sublevel ["idx_" + prefix + "_" + name];
    and for any other name it finds an inherited member when the name is one
    of [Object.prototype], or one of a configuration after "__proto__" was
    given, and nothing otherwise. *)
Lemma construct_lookup (prefix : string) entries coll :
  NoDup entries.*1 →
  construct get_prop prefix entries = inr coll →
  (indexes coll).*1 = filter (fun n => n ≠ "__proto__"%string) entries.*1 ∧
  (∀ name def, (name, def) ∈ entries →
     ∃ g enc, parseIndexDefinition get_prop name def = inr (g, enc) ∧
       indexes_lookup coll name =
       Found (mkConfig g ("idx_" +:+ prefix +:+ "_" +:+ name)%string enc)) ∧
  (∀ name, name ∉ entries.*1 →
     indexes_lookup coll name =
     if decide (name ∈ object_prototype_names ∨
                ("__proto__"%string ∈ entries.*1 ∧ name ∈ config_property_names))
     then Inherited else Absent).
Proof.
  intros Hnd Hcons. unfold construct in Hcons.
  destruct (register_indexes get_prop prefix entries [] None)
    as [e|[reg proto]] eqn:Hreg; [done|].
  injection Hcons as <-.
  pose proof (register_indexes_valid _ _ _ _ _ Hreg) as Hvalid.
  apply register_indexes_fresh in Hreg as (Hreg & Hdef & Hnone); [|done].
  simpl in Hreg. subst reg.
  pose proof (registered_names prefix entries Hvalid) as Hnames.
  assert ("__proto__"%string ∉
    (omap (fun nd => if decide (nd.1 = "__proto__"%string) then None
                     else registered get_prop prefix nd.1 nd.2) entries).*1) as Hown.
  { rewrite Hnames. intros [Hne _]%list_elem_of_filter. by apply Hne. }
  split; [done|]. split.
  - intros name def Hin.
    rewrite Forall_forall in Hvalid.
    destruct (registered_valid prefix name def (Hvalid _ Hin))
      as (g & enc & Hparse & Hregd).
    exists g, enc. split; [done|]. unfold indexes_lookup. simpl.
    destruct (decide (name = "__proto__"%string)) as [->|Hne].
    + rewrite registry_get_None by done.
      rewrite <- (Hdef def Hin), Hregd. done.
    + erewrite registry_get_NoDup; [done| |].
      * rewrite Hnames. by apply NoDup_filter.
      * apply list_elem_of_omap. exists (name, def). split; [done|].
        simpl. by rewrite decide_False.
  - intros name Hnot. unfold indexes_lookup. cbn [indexes indexes_proto].
    rewrite registry_get_None.
    2:{ rewrite Hnames. intros [_ ?]%list_elem_of_filter. done. }
    destruct (decide ("__proto__"%string ∈ entries.*1)) as [Hp|Hp].
    + pose proof Hp as ([n def] & Hn & Hin)%list_elem_of_fmap. simpl in Hn. subst n.
      rewrite Forall_forall in Hvalid.
      destruct (registered_valid prefix "__proto__" def (Hvalid _ Hin))
        as (g & enc & _ & Hregd).
      rewrite <- (Hdef def Hin), Hregd.
      change (snd <$> Some (?a, ?b)) with (Some b).
      destruct (decide (name = "__proto__"%string)) as [->|_]; [done|].
      destruct (decide (name ∈ config_property_names ++ object_prototype_names))
        as [[?|?]%elem_of_app|Hno].
      * rewrite decide_True; [done|]. by right.
      * rewrite decide_True; [done|]. by left.
      * rewrite decide_False; [done|]. intros [?|[_ ?]]; apply Hno, elem_of_app; auto.
    + rewrite (Hnone Hp).
      destruct (decide (name ∈ object_prototype_names)) as [?|Hno].
      * rewrite decide_True; [done|]. by left.
      * rewrite decide_False; [done|]. intros [?|[? _]]; done.
Qed.

(** For definitions with distinct names, a constructed collection has as
    own properties the names other than "__proto__", in the order given;
    [this.indexes[name]] finds for every given name the configuration parsed
    from its definition, with the sublevel ["idx_" + prefix + "_" + name];
    and for any other name it finds an inherited member when the name is one
    of [Object.prototype], or one of a configuration after "__proto__" was
    given, and nothing otherwise. *)
Theorem construct_registry (prefix : string) entries coll :
  NoDup entries.*1 →
  construct get_prop prefix entries = inr coll →
  (indexes coll).*1 = filter (fun n => n ≠ "__proto__"%string) entries.*1 ∧
  (∀ name def, (name, def) ∈ entries →
     ∃ g enc, parseIndexDefinition get_prop name def = inr (g, enc) ∧
       indexes_lookup coll name =
       Found (mkConfig g ("idx_" +:+ prefix +:+ "_" +:+ name)%string enc)) ∧
  (∀ name, name ∉ entries.*1 →
     indexes_lookup coll name =
     if decide (name ∈ object_prototype_names ∨
                ("__proto__"%string ∈ entries.*1 ∧ name ∈ config_property_names))
     then Inherited else Absent).
Proof. apply construct_lookup. Qed.

(** On a collection constructed from definitions with distinct names, a
    query on a given name returns the records of the hits of its
    configuration; a query on any other name changes nothing and fails, with
    a [TypeError] when the name is one that [this.indexes] inherits and with
    [IndexNotFound] otherwise. *)
Theorem query_names (prefix : string) entries coll (value : atom) s :
  NoDup entries.*1 →
  construct get_prop prefix entries = inr coll →
  (∀ name def, (name, def) ∈ entries →
     ∃ g enc, parseIndexDefinition get_prop name def = inr (g, enc) ∧
       query coll name value s =
       mkOutcome (inr (query_hits
         (mkConfig g ("idx_" +:+ prefix +:+ "_" +:+ name)%string enc) value s).*2) [] s) ∧
  (∀ name, name ∉ entries.*1 →
     query coll name value s =
     mkOutcome (inl (if decide (name ∈ object_prototype_names ∨
                       ("__proto__"%string ∈ entries.*1 ∧ name ∈ config_property_names))
                     then TypeError else IndexNotFound name)) [] s).
Proof.
  intros Hnd Hcons.
  destruct (construct_lookup prefix entries coll Hnd Hcons) as (_ & Hin & Hout).
  split.
  - intros name def Hdef. destruct (Hin name def Hdef) as (g & enc & Hparse & Hlook).
    exists g, enc. split; [done|].
    pose proof (query_by_lookup coll name value s) as (Ha & Hs & Hr).
    rewrite Hlook in Hr.
    destruct (query coll name value s) as [r st a]. simpl in *. by subst.
  - intros name Hnot.
    pose proof (query_by_lookup coll name value s) as (Ha & Hs & Hr).
    rewrite (Hout name Hnot) in Hr.
    destruct (query coll name value s) as [r st a]. simpl in *.
    f_equal; [|done|done].
    by destruct (decide (name ∈ object_prototype_names ∨ _)).
Qed.

(** Two different registered names never share a sublevel, and the sublevel
    of a registered name is ["idx_" + prefix + "_" + name]. *)
Theorem construct_sublevels_distinct (prefix : string) entries coll
    (n1 n2 : string) (c1 c2 : IndexConfig V) :
  construct get_prop prefix entries = inr coll →
  registry_get (indexes coll) n1 = Some c1 →
  registry_get (indexes coll) n2 = Some c2 →
  sublevel c1 = ("idx_" +:+ prefix +:+ "_" +:+ n1)%string ∧
  (n1 ≠ n2 → sublevel c1 ≠ sublevel c2).
Proof.
  intros [_ Hall]%construct_wf H1%registry_get_elem H2%registry_get_elem.
  rewrite Forall_forall in Hall.
  pose proof (Hall _ H1) as Hs1. pose proof (Hall _ H2) as Hs2. simpl in *.
  split; [done|]. intros Hne Heq. apply Hne.
  rewrite Hs1, Hs2 in Heq. by do 3 apply (inj (String.append _)) in Heq.
Qed.

(** ** Writes on a constructed collection *)

(** [put] keeps the index sublevels exact when the key is new, or when
    every index value the getters gave on the old record they give on the
    new one too. *)
Lemma put_exact (prefix : string) entries coll key value s :
  construct get_prop prefix entries = inr coll →
  index_exact coll s →
  (∀ old config iv, get key s = Some old → config ∈ configs coll →
     getter config old = Returns iv → getter config value = Returns iv) →
  index_exact coll (after (put coll key value s)).
Proof.
  intros Hwf%construct_wf Hinv Hsame config iv K Hin.
  destruct (put_cases coll key value s)
    as [[Hall Hput]|(pre & c & e & post & _ & _ & _ & ->)]; [|by apply Hinv].
  assert (result (put coll key value s) = inr tt) as Hok by (by rewrite Hput).
  rewrite (put_sublevel_lookup prefix), put_main by done.
  destruct (decide (K = key ∧ getter config value = Returns iv)) as [[-> Hg]|Hno].
  - rewrite lookup_insert_eq. split; [|by eexists]. intros _. by exists value.
  - destruct (decide (K = key)) as [->|Hne].
    + rewrite lookup_insert_eq, (Hinv config iv key Hin). split.
      * intros (old & Hold & Hg). exfalso. apply Hno. split; [done|].
        by apply (Hsame old).
      * intros (V0 & [= <-] & Hg). exfalso. by apply Hno.
    + rewrite lookup_insert_ne by done. by apply Hinv.
Qed.

(** [put] keeps the index sublevels exact when the key is new, or when
    every index value the getters gave on the old record they give on the
    new one too. *)
Theorem put_keeps_index_exact (prefix : string) entries coll key value s :
  construct get_prop prefix entries = inr coll →
  index_exact coll s →
  (∀ old config iv, get key s = Some old → config ∈ configs coll →
     getter config old = Returns iv → getter config value = Returns iv) →
  index_exact coll (after (put coll key value s)).
Proof. apply put_exact. Qed.

(** A record on which the getter of an index returns [undefined] changes
    nothing in the sublevel of that index. *)
Theorem put_undefined_leaves_index (prefix : string) entries coll key value s
    config (ck : entrykey) :
  construct get_prop prefix entries = inr coll →
  config ∈ configs coll →
  getter config value = ReturnsUndefined →
  sublevel_store (after (put coll key value s)) (sublevel config) !! ck =
  sublevel_store s (sublevel config) !! ck.
Proof.
  intros Hwf%construct_wf Hin Hg.
  destruct (put_cases coll key value s)
    as [[Hall Hput]|(pre & c & e & post & _ & _ & _ & ->)]; [|done].
  assert (result (put coll key value s) = inr tt) as Hok by (by rewrite Hput).
  destruct ck as [iv K].
  rewrite (put_sublevel_lookup prefix) by done.
  rewrite decide_False; [done|]. intros [_ ?]. congruence.
Qed.

(** [del] after a successful [put] of the same key succeeds, removes the
    record and the index entries of the value just put, and leaves every
    other index entry as it was before the [put]. *)
Theorem put_then_del (prefix : string) entries coll key value s config (iv K : atom) :
  construct get_prop prefix entries = inr coll →
  result (put coll key value s) = inr tt →
  config ∈ configs coll →
  let s1 := after (put coll key value s) in
  let s2 := after (del coll key s1) in
  result (del coll key s1) = inr tt ∧
  main s2 = delete key (main s) ∧
  sublevel_store s2 (sublevel config) !! (iv, K) =
    if decide (K = key ∧ getter config value = Returns iv) then None
    else sublevel_store s (sublevel config) !! (iv, K).
Proof.
  intros Hwf%construct_wf Hok Hin. cbv zeta.
  assert (get key (after (put coll key value s)) = Some value) as Hget.
  { unfold get. rewrite put_main by done. apply lookup_insert_eq. }
  destruct (put_cases coll key value s)
    as [[Hall _]|(pre & c & e & post & _ & _ & _ & Hput)];
    [|by rewrite Hput in Hok].
  destruct (del_cases coll key value _ Hget)
    as [[_ Hdel]|(pre & c & e & post & Hcfgs & _ & Hc & _)].
  2:{ exfalso. rewrite Hcfgs in Hall.
      apply Forall_app in Hall as [_ [Hnot _]%Forall_cons]. apply Hnot. by exists e. }
  rewrite Hdel. cbn [result after]. split; [done|].
  change (write (?op :: ?ops) ?s) with (write ops (apply_op s op)).
  split.
  - rewrite write_idx_ops_main by apply index_dels_are_idx_ops. simpl.
    rewrite put_main by done. apply delete_insert_eq.
  - destruct (decide (K = key ∧ getter config value = Returns iv)) as [[-> Hg]|Hno].
    + apply write_dels_absent; [apply index_dels_are_dels|].
      apply list_elem_of_omap. exists config. split; [done|].
      unfold index_del. by rewrite Hg.
    + rewrite write_untouched, apply_op_lookup.
      * rewrite (put_sublevel_lookup prefix) by done. by rewrite decide_False.
      * apply Forall_forall.
        intros op (c & iv' & Hc & Hg & ->)%index_dels_inv [Hsub [= -> ->]].
        apply Hno. split; [done|].
        by rewrite (registry_wf_sublevel_inj prefix (indexes coll) config c).
Qed.

End Constructor.

(** * The index prefix *)

Lemma replace_bangs_clean (s : string) :
  has_bang s = false → replace_bangs s = s.
Proof.
  induction s as [|c s IH]; simpl; [done|].
  destruct (Ascii.eqb c bang); simpl; [done|].
  intros H. by rewrite IH.
Qed.

Lemma string_append_assoc (s t u : string) :
  ((s +:+ t) +:+ u = s +:+ t +:+ u)%string.
Proof.
  induction s as [|c s IH]; [done|].
  change (String c ((s +:+ t) +:+ u) = String c (s +:+ t +:+ u))%string.
  by rewrite IH.
Qed.

Lemma replace_bangs_app (s t : string) :
  replace_bangs (s +:+ t) = replace_bangs s +:+ replace_bangs t.
Proof.
  induction s as [|c s IH]; [done|].
  change (String (if Ascii.eqb c bang then underscore else c)
            (replace_bangs (s +:+ t)) =
          String (if Ascii.eqb c bang then underscore else c)
            (replace_bangs s +:+ replace_bangs t))%string.
  by rewrite IH.
Qed.

(** For a sublevel whose [prefix] property is ["!" + name + "!"] with a name
    free of "!", [_makeIndexPrefix] gives the sublevel name that the
    constructor gives the index. *)
Theorem makeIndexPrefix_constructor_name (prefix name : string) :
  has_bang prefix = false →
  _makeIndexPrefix ("!" +:+ prefix +:+ "!") name =
  ("idx_" +:+ prefix +:+ "_" +:+ name)%string.
Proof.
  intros Hclean. unfold _makeIndexPrefix.
  rewrite !replace_bangs_app, (replace_bangs_clean prefix Hclean).
  change (replace_bangs "!") with "_"%string.
  by rewrite !string_append_assoc.
Qed.

(** [_makeIndexPrefix] leaves no "!" of the sublevel prefix in its result,
    and for one sublevel it gives different names different results. *)
Theorem makeIndexPrefix_names (this_prefix n1 n2 : string) :
  has_bang (replace_bangs this_prefix) = false ∧
  String.length (replace_bangs this_prefix) = String.length this_prefix ∧
  (_makeIndexPrefix this_prefix n1 = _makeIndexPrefix this_prefix n2 → n1 = n2).
Proof.
  split; [|split].
  - induction this_prefix as [|c s IH]; simpl; [done|].
    destruct (Ascii.eqb c bang) eqn:Hc; simpl; [done|]. by rewrite Hc.
  - induction this_prefix as [|c s IH]; simpl; [done|]. by rewrite IH.
  - unfold _makeIndexPrefix. intros H.
    by do 2 apply (inj (String.append _)) in H.
Qed.

(** * Scenarios for the further properties *)

Lemma users_constructed : construct record_prop "users" users_indexes = inr users.
Proof. reflexivity. Qed.

Lemma users_names_NoDup : NoDup users_indexes.*1.
Proof.
  apply NoDup_cons. split; [|apply NoDup_singleton].
  intros H%list_elem_of_singleton. discriminate.
Qed.

Lemma users_byAge_config : byAge_config ∈ configs users.
Proof. apply (registry_get_configs users "byAge"). reflexivity. Qed.

Lemma users_byName_config : byName_config ∈ configs users.
Proof. apply (registry_get_configs users "byName"). reflexivity. Qed.

Lemma index_exact_empty {V : Type} (coll : IdexedSubLevel V) :
  index_exact coll empty_store.
Proof.
  intros config iv K _. rewrite empty_store_lookup. split.
  - by intros [? ?].
  - intros (V0 & HV0 & _). simpl in HV0. by rewrite lookup_empty in HV0.
Qed.

Lemma store_30_exact : index_exact users store_30.
Proof.
  apply (put_exact record_prop "users" users_indexes); [reflexivity| |].
  - apply index_exact_empty.
  - intros old config iv Hold. unfold get in Hold. simpl in Hold.
    by rewrite lookup_empty in Hold.
Qed.

Lemma store_31_reachable : reachable users store_31.
Proof. apply reachable_put, reachable_put, reachable_empty. Qed.

Lemma del_getter_raises_witness :
  after (del strict_users u1 store_unindexed) = store_unindexed ∧
  ∃ pre config e post,
    configs strict_users = pre ++ config :: post ∧
    Forall (fun c => ¬ raises (aged 30) c) pre ∧
    getter config (aged 30) = Throws e ∧
    result (del strict_users u1 store_unindexed) = inl (GetterFailure e) ∧
    staged (del strict_users u1 store_unindexed) =
      BDel u1 :: omap (index_del u1 (aged 30)) pre.
Proof.
  apply (del_getter_raises strict_users u1 (aged 30) store_unindexed).
  - vm_compute. reflexivity.
  - exists byCity_config. split.
    + apply (registry_get_configs strict_users "byCity"). reflexivity.
    + exists "TypeError"%string. reflexivity.
Defined.

Lemma writes_keep_other_keys_witness :
  get u2 (after (put users u1 (aged 31) store_30)) = get u2 store_30 ∧
  get u2 (after (del users u1 store_30)) = get u2 store_30.
Proof.
  apply (writes_keep_other_keys users u1 (aged 31) store_30 u2).
  vm_compute. discriminate.
Defined.

Lemma reachable_index_complete_witness : index_complete users store_31.
Proof. exact (reachable_index_complete users store_31 store_31_reachable). Defined.

Lemma reachable_query_finds_witness :
  result (query users "byAge" (ANum 31) store_31)
    = inr (query_hits byAge_config (ANum 31) store_31).*2 ∧
  filter (fun h => h.1 = u1) (query_hits byAge_config (ANum 31) store_31)
    = [(u1, aged 31)].
Proof.
  apply (reachable_query_finds users store_31 u1 (aged 31) "byAge" byAge_config
    (ANum 31) store_31_reachable);
    [vm_compute; reflexivity | reflexivity | reflexivity
    | exact charwise_lawful | reflexivity].
Defined.

Lemma reachable_payload_empty_witness : ""%string = ""%string.
Proof.
  apply (reachable_payload_empty users store_31 "idx_users_byAge" (ANum 30, u1) ""
    store_31_reachable).
  vm_compute. reflexivity.
Defined.

Lemma del_keeps_collection_invariant_witness :
  collection_invariant users (after (del users u1 store_30)).
Proof.
  apply (del_keeps_collection_invariant users u1 store_30).
  exact (index_exact_invariant users store_30 store_30_exact).
Defined.

Lemma del_keeps_index_exact_witness :
  index_exact users (after (del users u1 store_30)).
Proof. exact (del_keeps_index_exact users u1 store_30 store_30_exact). Defined.

Lemma query_exact_witness :
  result (query users "byAge" (ANum 30) store_30)
    = inr (query_hits byAge_config (ANum 30) store_30).*2 ∧
  NoDup (query_hits byAge_config (ANum 30) store_30).*1 ∧
  ∀ k r, (k, r) ∈ query_hits byAge_config (ANum 30) store_30 ↔
         main store_30 !! k = Some r ∧ getter byAge_config r = Returns (ANum 30) ∧
         keyEncoding byAge_config k (AStr high_value) = Lt.
Proof.
  exact (query_exact users "byAge" byAge_config (ANum 30) store_30
    store_30_exact eq_refl charwise_lawful).
Defined.

Lemma shadow_constructed :
  construct record_prop "users" shadow_indexes = inr shadow_users.
Proof. reflexivity. Qed.

Lemma shadow_names_NoDup : NoDup shadow_indexes.*1.
Proof.
  apply NoDup_cons. split; [|apply NoDup_singleton].
  intros H%list_elem_of_singleton. discriminate.
Qed.

Lemma construct_registry_witness :
  (indexes shadow_users).*1
    = filter (fun n => n ≠ "__proto__"%string) shadow_indexes.*1 ∧
  (∀ name def, (name, def) ∈ shadow_indexes →
     ∃ g enc, parseIndexDefinition record_prop name def = inr (g, enc) ∧
       indexes_lookup shadow_users name =
       Found (mkConfig g ("idx_" +:+ "users" +:+ "_" +:+ name)%string enc)) ∧
  (∀ name, name ∉ shadow_indexes.*1 →
     indexes_lookup shadow_users name =
     if decide (name ∈ object_prototype_names ∨
                ("__proto__"%string ∈ shadow_indexes.*1 ∧ name ∈ config_property_names))
     then Inherited else Absent).
Proof.
  exact (construct_registry record_prop "users" shadow_indexes shadow_users
    shadow_names_NoDup shadow_constructed).
Defined.

Lemma query_names_witness :
  (∀ name def, (name, def) ∈ users_indexes →
     ∃ g enc, parseIndexDefinition record_prop name def = inr (g, enc) ∧
       query users name (ANum 30) store_30 =
       mkOutcome (inr (query_hits
         (mkConfig g ("idx_" +:+ "users" +:+ "_" +:+ name)%string enc)
         (ANum 30) store_30).*2) [] store_30) ∧
  (∀ name, name ∉ users_indexes.*1 →
     query users name (ANum 30) store_30 =
     mkOutcome (inl (if decide (name ∈ object_prototype_names ∨
                       ("__proto__"%string ∈ users_indexes.*1 ∧ name ∈ config_property_names))
                     then TypeError else IndexNotFound name)) [] store_30).
Proof.
  exact (query_names record_prop "users" users_indexes users (ANum 30) store_30
    users_names_NoDup users_constructed).
Defined.

Lemma construct_valid_witness :
  Forall (fun nd : string * IndexDef record => valid_def nd.2) users_indexes.
Proof. exact (construct_valid record_prop "users" users_indexes users users_constructed). Defined.

Lemma put_success_batch_witness :
  Forall (fun c => ¬ raises (aged 30) c) (configs users) ∧
  staged (put users u1 (aged 30) empty_store) =
    BPut u1 (aged 30) :: omap (index_put u1 (aged 30)) (configs users) ∧
  after (put users u1 (aged 30) empty_store)
    = write (staged (put users u1 (aged 30) empty_store)) empty_store.
Proof. exact (put_success_batch users u1 (aged 30) empty_store eq_refl). Defined.

Lemma del_success_batch_witness :
  match get u1 store_30 with
  | None => staged (del users u1 store_30) = [] ∧ after (del users u1 store_30) = store_30
  | Some old =>
      Forall (fun c => ¬ raises old c) (configs users) ∧
      staged (del users u1 store_30) =
        BDel u1 :: omap (index_del u1 old) (configs users) ∧
      after (del users u1 store_30) = write (staged (del users u1 store_30)) store_30
  end.
Proof. exact (del_success_batch users u1 store_30 eq_refl). Defined.

Lemma query_returns_witness :
  result (query users "byAge" (ANum 30) store_31)
    = inr (query_hits byAge_config (ANum 30) store_31).*2 ∧
  NoDup (query_hits byAge_config (ANum 30) store_31).*1 ∧
  ∀ k r, (k, r) ∈ query_hits byAge_config (ANum 30) store_31 ↔
         main store_31 !! k = Some r ∧
         is_Some (sublevel_store store_31 (sublevel byAge_config) !! (ANum 30, k)) ∧
         keyEncoding byAge_config k (AStr high_value) = Lt.
Proof.
  exact (query_returns users "byAge" byAge_config (ANum 30) store_31
    eq_refl charwise_lawful).
Defined.

Lemma construct_sublevels_distinct_witness :
  sublevel byAge_config = "idx_users_byAge"%string ∧
  ("byAge"%string ≠ "byName"%string → sublevel byAge_config ≠ sublevel byName_config).
Proof.
  exact (construct_sublevels_distinct record_prop "users" users_indexes users
    "byAge" "byName" byAge_config byName_config users_constructed eq_refl eq_refl).
Defined.

Lemma put_keeps_index_exact_witness :
  index_exact users (after (put users u1 (("name"%string, AStr (str "ann")) :: aged 30) store_30)).
Proof.
  apply (put_keeps_index_exact record_prop "users" users_indexes users u1
    (("name"%string, AStr (str "ann")) :: aged 30) store_30 users_constructed
    store_30_exact).
  intros old config iv Hold Hin Hg.
  assert (old = aged 30) as ->
    by (vm_compute in Hold; injection Hold as <-; reflexivity).
  rewrite users_configs in Hin.
  apply elem_of_cons in Hin as [->|Hin].
  - vm_compute in Hg. vm_compute. exact Hg.
  - apply list_elem_of_singleton in Hin as ->. vm_compute in Hg. discriminate.
Defined.

Lemma put_undefined_leaves_index_witness :
  sublevel_store store_30 "idx_users_byName" !! (AStr (str "ann"), u1) =
  sublevel_store (@empty_store record) "idx_users_byName" !! (AStr (str "ann"), u1).
Proof.
  exact (put_undefined_leaves_index record_prop "users" users_indexes users u1
    (aged 30) empty_store byName_config (AStr (str "ann"), u1)
    users_constructed users_byName_config eq_refl).
Defined.

Lemma put_then_del_witness :
  result (del users u1 store_30) = inr tt ∧
  main (after (del users u1 store_30)) = delete u1 (main (@empty_store record)) ∧
  sublevel_store (after (del users u1 store_30)) "idx_users_byAge" !! (ANum 30, u1) =
    if decide (u1 = u1 ∧ getter byAge_config (aged 30) = Returns (ANum 30)) then None
    else sublevel_store (@empty_store record) "idx_users_byAge" !! (ANum 30, u1).
Proof.
  exact (put_then_del record_prop "users" users_indexes users u1 (aged 30)
    empty_store byAge_config (ANum 30) u1 users_constructed eq_refl
    users_byAge_config).
Defined.

Lemma makeIndexPrefix_constructor_name_witness :
  _makeIndexPrefix "!users!" "byAge" = "idx_users_byAge"%string.
Proof. exact (makeIndexPrefix_constructor_name "users" "byAge" eq_refl). Defined.
